(** * Secure Action Gateway: guard, URL tracker, approval ledger, credential bridge

    A shallow embedding of the secure-browser extension
    (hooks/browser-guard.ts, vault.ts, tools/confirm-action.ts,
    tools/vault-fill.ts) and the properties its specification states.

    Conventions.
    - A JavaScript string is a [string]: each [ascii] stands for one UTF-16
      code unit below 256.  [toLowerCase] and the regular-expression
      canonicalisation are the ECMAScript ones restricted to that range.
    - [unknown] values (tool parameters, tool results) are [jsval]s.
    - Exceptions are [Thrown msg]; [msg] is what
      [err instanceof Error ? err.message : String(err)] yields. *)

From Stdlib Require Import Ascii String NArith.
From stdpp Require Import base option list strings gmap pretty.

Local Open Scope string_scope.
Local Open Scope list_scope.

(** String concatenation unfolds on a literal or a constructor. *)
#[local] Arguments String.append !s1 s2 / : simpl nomatch.

(** ** Part I: the program *)

(** *** JavaScript strings *)

Module JsString.

(** [String.prototype.toLowerCase] on one code unit below 256: the ASCII
    capitals and the Latin-1 capitals U+00C0..U+00DE (U+00D7 is the
    multiplication sign) move up by 32. *)
Definition lower_unit (c : ascii) : ascii :=
  let n := N_of_ascii c in
  if ((65 <=? n) && (n <=? 90) || (192 <=? n) && (n <=? 222) && negb (n =? 215))%N
  then ascii_of_N (n + 32) else c.

Fixpoint toLowerCase (s : string) : string :=
  match s with
  | EmptyString => EmptyString
  | String c s' => String (lower_unit c) (toLowerCase s')
  end.

(** [s.startsWith(p)] *)
Fixpoint startsWith (s p : string) {struct p} : bool :=
  match p, s with
  | EmptyString, _ => true
  | String _ _, EmptyString => false
  | String a p', String b s' => if Ascii.eqb a b then startsWith s' p' else false
  end.

(** [s.endsWith(suffix)]: some tail of [s] is [suffix]. *)
Fixpoint endsWith (s suffix : string) : bool :=
  String.eqb s suffix ||
  match s with
  | EmptyString => false
  | String _ s' => endsWith s' suffix
  end.

(** [s.includes(t)]: [t] starts at some position of [s]. *)
Fixpoint includes (s t : string) : bool :=
  startsWith s t ||
  match s with
  | EmptyString => false
  | String _ s' => includes s' t
  end.

(** [parts.join(sep)] *)
Fixpoint join (sep : string) (parts : list string) : string :=
  match parts with
  | [] => ""
  | [p] => p
  | p :: rest => p ++ sep ++ join sep rest
  end.

(** The one-character string holding a double quote. *)
Definition dquote : string := String (ascii_of_nat 34) EmptyString.

(** A string is truthy unless it is empty. *)
Definition truthy (s : string) : bool := negb (String.eqb s "").

End JsString.
Import JsString.

(** *** JavaScript values *)

#[local] Set Warnings "-register-all".

Inductive jsval : Type :=
| JUndefined
| JNull
| JBool (b : bool)
| JNum (n : Z)
| JStr (s : string)
| JArr (items : list jsval)
| JObj (fields : list (string * jsval)).

(** Own-property lookup in an object literal. *)
Fixpoint assoc (k : string) (fields : list (string * jsval)) : jsval :=
  match fields with
  | [] => JUndefined
  | (k', v) :: rest => if String.eqb k' k then v else assoc k rest
  end.

(** [v.k] for a value already known not to be null or undefined: primitives
    and arrays have none of the properties read here. *)
Definition get_prop (v : jsval) (k : string) : jsval :=
  match v with
  | JObj fields => assoc k fields
  | _ => JUndefined
  end.

(** [typeof v === "string" ? v : <absent>] *)
Definition as_string (v : jsval) : option string :=
  match v with
  | JStr s => Some s
  | _ => None
  end.

Definition js_truthy (v : jsval) : bool :=
  match v with
  | JUndefined | JNull => false
  | JBool b => b
  | JNum n => negb (n =? 0)%Z
  | JStr s => truthy s
  | JArr _ | JObj _ => true
  end.

(** *** Regular expressions (the fragment the extension uses, flag [i]) *)

Module Regex.

Inductive regex : Type :=
| Void                         (* matches nothing; only arises in derivatives *)
| Eps                          (* the empty pattern *)
| Chr (c : ascii)              (* a literal pattern character *)
| Dot                          (* [.] *)
| Seq (r1 r2 : regex)
| Alt (r1 r2 : regex)
| Opt (r : regex)              (* [r?] *)
| Star (r : regex).            (* [r*] *)

(** Canonicalize under [/i] without [/u], as far as it decides a comparison
    with an ASCII pattern character (all the patterns here are ASCII): [a-z]
    map to [A-Z]; a code unit from 128 on never maps into the ASCII range, so
    it is left alone and meets no pattern character. *)
Definition canonicalize (c : ascii) : ascii :=
  let n := N_of_ascii c in
  if ((97 <=? n) && (n <=? 122))%N then ascii_of_N (n - 32) else c.

Definition chr_matches (p x : ascii) : bool :=
  Ascii.eqb (canonicalize p) (canonicalize x).

(** [.] matches every code unit but the line terminators; below 256 these
    are LF and CR. *)
Definition dot_matches (x : ascii) : bool :=
  negb (Ascii.eqb x "010"%char || Ascii.eqb x "013"%char).

Fixpoint nullable (r : regex) : bool :=
  match r with
  | Void | Chr _ | Dot => false
  | Eps | Opt _ | Star _ => true
  | Seq r1 r2 => nullable r1 && nullable r2
  | Alt r1 r2 => nullable r1 || nullable r2
  end.

(** The residual pattern after reading [x]. *)
Fixpoint deriv (x : ascii) (r : regex) : regex :=
  match r with
  | Void | Eps => Void
  | Chr p => if chr_matches p x then Eps else Void
  | Dot => if dot_matches x then Eps else Void
  | Seq r1 r2 =>
      if nullable r1 then Alt (Seq (deriv x r1) r2) (deriv x r2)
      else Seq (deriv x r1) r2
  | Alt r1 r2 => Alt (deriv x r1) (deriv x r2)
  | Opt r1 => deriv x r1
  | Star r1 => Seq (deriv x r1) (Star r1)
  end.

(** Some prefix of [s] matches [r]. *)
Fixpoint match_here (r : regex) (s : string) : bool :=
  nullable r ||
  match s with
  | EmptyString => false
  | String x s' => match_here (deriv x r) s'
  end.

(** [r.test(s)] for a pattern without anchors or the [g]/[y] flags: a
    match starts at some position of [s]. *)
Fixpoint test (r : regex) (s : string) : bool :=
  match_here r s ||
  match s with
  | EmptyString => false
  | String _ s' => test r s'
  end.

(** Pattern text: a run of literal characters. *)
Fixpoint lit (s : string) : regex :=
  match s with
  | EmptyString => Eps
  | String c EmptyString => Chr c
  | String c s' => Seq (Chr c) (lit s')
  end.

Fixpoint seq (rs : list regex) : regex :=
  match rs with
  | [] => Eps
  | [r] => r
  | r :: rest => Seq r (seq rest)
  end.

Fixpoint alt (rs : list regex) : regex :=
  match rs with
  | [] => Void
  | [r] => r
  | r :: rest => Alt r (alt rest)
  end.

(** [.?] *)
Definition any1 : regex := Opt Dot.

(** The strings a pattern matches, as the language of the pattern: the
    reference [nullable], [deriv] and [test] are checked against. *)
Inductive matches : regex -> string -> Prop :=
| m_eps : matches Eps ""
| m_chr (p x : ascii) : chr_matches p x = true -> matches (Chr p) (String x "")
| m_dot (x : ascii) : dot_matches x = true -> matches Dot (String x "")
| m_seq (r1 r2 : regex) (s1 s2 : string) :
    matches r1 s1 -> matches r2 s2 -> matches (Seq r1 r2) (s1 ++ s2)
| m_alt_l (r1 r2 : regex) (s : string) : matches r1 s -> matches (Alt r1 r2) s
| m_alt_r (r1 r2 : regex) (s : string) : matches r2 s -> matches (Alt r1 r2) s
| m_opt_none (r : regex) : matches (Opt r) ""
| m_opt_some (r : regex) (s : string) : matches r s -> matches (Opt r) s
| m_star_nil (r : regex) : matches (Star r) ""
| m_star_cons (r : regex) (s1 s2 : string) :
    matches r s1 -> matches (Star r) s2 -> matches (Star r) (s1 ++ s2).

End Regex.
Import Regex.

(** *** hooks/browser-guard.ts *)

(** [new URL(url).hostname] belongs to the platform, not to the extension:
    the guard takes it as [url_hostname], [None] when the constructor
    throws. *)
Definition url_parser : Type := string -> option string.

(** A parser for plain [http(s)://host[:port][/path]] URLs, enough to run
    the guard on examples: the host is lower-cased as the platform does, and
    everything else (no scheme, empty host) is rejected. *)
Module SimpleUrl.

Fixpoint take_host (s : string) : string :=
  match s with
  | EmptyString => EmptyString
  | String c s' =>
      if (Ascii.eqb c "/" || Ascii.eqb c "?" || Ascii.eqb c "#" || Ascii.eqb c ":")%char
      then EmptyString else String c (take_host s')
  end.

Definition after_scheme (url : string) : option string :=
  let l := toLowerCase url in
  if startsWith l "https://" then Some (substring 8 (String.length l - 8) l)
  else if startsWith l "http://" then Some (substring 7 (String.length l - 7) l)
  else None.

Definition hostname : url_parser := fun url =>
  match after_scheme url with
  | Some rest =>
      let h := take_host rest in
      if String.eqb h "" then None else Some h
  | None => None
  end.

End SimpleUrl.

Module Guard.

(** [PURCHASE_KEYWORDS] *)
Definition PURCHASE_KEYWORDS : regex :=
  alt [ seq [lit "place"; any1; lit "order"];
        seq [lit "buy"; any1; lit "now"];
        lit "checkout";
        seq [lit "complete"; any1; lit "purchase"];
        seq [lit "confirm"; any1; lit "order"];
        seq [lit "pay"; any1; lit "now"];
        seq [lit "submit"; any1; lit "order"];
        seq [lit "proceed"; any1; lit "to"; any1; lit "pay"];
        seq [lit "place"; any1; lit "your"; any1; lit "order"];
        lit "purchase";
        seq [lit "add"; any1; lit "to"; any1; lit "cart"; any1; lit "and"; any1;
             lit "checkout"] ].

(** The test of one configured domain against the lower-cased hostname. *)
Definition host_matches (hostname domain : string) : bool :=
  let d := toLowerCase domain in
  String.eqb hostname d || String.eqb hostname ("www." ++ d)
  || endsWith hostname ("." ++ d).

Definition isSensitiveDomain (url_hostname : url_parser)
    (url : string) (domains : list string) : bool :=
  match url_hostname url with
  | Some h =>
      let hostname := toLowerCase h in
      existsb (host_matches hostname) domains
  | None =>
      (* catch: match on substring as fallback *)
      let lower := toLowerCase url in
      existsb (fun d => includes lower (toLowerCase d)) domains
  end.

(** [if (typeof v === "string") parts.push(v)] *)
Definition push_if_string (v : jsval) (parts : list string) : list string :=
  match as_string v with
  | Some s => parts ++ [s]
  | None => parts
  end.

Definition extractActText (params : jsval) : string :=
  let parts := [] in
  let request := get_prop params "request" in
  let parts :=
    if js_truthy request then
      push_if_string (get_prop request "key")
        (push_if_string (get_prop request "ref")
           (push_if_string (get_prop request "text") parts))
    else parts in
  let parts := push_if_string (get_prop params "targetUrl") parts in
  join " " parts.

(** [PluginHookBeforeToolCallEvent] *)
Record BeforeToolCallEvent := {
  toolName : string;
  params : jsval            (* Record<string, unknown> *)
}.

(** What the handler resolves to: nothing, or a refusal. *)
Inductive GuardResult :=
| Pass                                     (* [return;] *)
| Block (blockReason : string).            (* [{ block: true, blockReason }] *)

Definition blockReason : string :=
  join " "
    [ "This action looks like a purchase or financial transaction on a sensitive domain.";
      "You must call confirm_action first to get user approval before proceeding.";
      "Send a screenshot and summary of what you're about to do, then wait for the user's response." ].

(** [action = typeof params.action === "string" ? params.action : ""] *)
Definition action_of (params : jsval) : string :=
  default "" (as_string (get_prop params "action")).

(** [opts.getCurrentUrl?.() ?? lastKnownUrl]: [getCurrentUrl] is [None]
    when no getter was passed, otherwise what the getter returns now. *)
Definition effective_url (getCurrentUrl : option (option string))
    (lastKnownUrl : option string) : option string :=
  match getCurrentUrl with
  | Some (Some u) => Some u
  | _ => lastKnownUrl
  end.

(** The handler returned by [createBrowserGuardHandler], on the closure
    variable [lastKnownUrl]; the [logger.info] line carries no state. *)
Definition guardHandler (url_hostname : url_parser) (sensitiveDomains : list string)
    (getCurrentUrl : option (option string))
    (event : BeforeToolCallEvent) (lastKnownUrl : option string)
  : GuardResult * option string :=
  if negb (String.eqb (toolName event) "browser") then (Pass, lastKnownUrl) else
  let params := params event in
  let action := action_of params in
  let lastKnownUrl :=
    match String.eqb action "navigate", as_string (get_prop params "targetUrl") with
    | true, Some targetUrl => Some targetUrl
    | _, _ => lastKnownUrl
    end in
  if negb (String.eqb action "act") then (Pass, lastKnownUrl) else
  match effective_url getCurrentUrl lastKnownUrl with
  | None => (Pass, lastKnownUrl)
  | Some currentUrl =>
      if negb (truthy currentUrl) then (Pass, lastKnownUrl) else
      if negb (isSensitiveDomain url_hostname currentUrl sensitiveDomains)
      then (Pass, lastKnownUrl) else
      let actText := extractActText params in
      if negb (test PURCHASE_KEYWORDS actText) then (Pass, lastKnownUrl) else
      (Block blockReason, lastKnownUrl)
  end.

(** [createUrlTracker]: the [after_tool_call] event and the handler on the
    closure variable [currentUrl]. *)
Record AfterToolCallEvent := {
  a_toolName : string;
  a_params : jsval;
  a_result : jsval          (* [undefined] when the event has no result *)
}.

Definition trackerHandler (event : AfterToolCallEvent) (currentUrl : option string)
  : option string :=
  if negb (String.eqb (a_toolName event) "browser") then currentUrl else
  let action := action_of (a_params event) in
  let result := a_result event in
  let currentUrl :=
    match String.eqb action "navigate",
          as_string (get_prop (a_params event) "targetUrl") with
    | true, Some targetUrl => Some targetUrl
    | _, _ => currentUrl
    end in
  if js_truthy result then
    match as_string (get_prop result "url") with
    | Some u => Some u
    | None => currentUrl
    end
  else currentUrl.

(** [getCurrentUrl: () => currentUrl] *)
Definition getCurrentUrl (currentUrl : option string) : option string := currentUrl.

End Guard.
Import Guard.

(** *** tools/confirm-action.ts: the pending-approval ledger *)

Module Ledger.

(** A promise is named by the number of its [resolve] function, a timer by
    its handle. *)
Record PendingApproval := {
  pa_id : string;
  pa_resolve : nat;
  pa_timeout : nat
}.

(** What the callback given to [setTimeout] in [waitForApproval] closes
    over, and the delay it was armed with. *)
Record TimerCallback := {
  tc_approvalId : string;
  tc_resolve : nat;
  tc_timeoutMs : Z
}.

Record state := {
  pendingApprovals : gmap string PendingApproval;   (* the module-level Map *)
  timers : gmap nat TimerCallback;     (* armed: neither fired nor cleared *)
  calls : list (nat * bool);           (* calls of resolve functions, oldest first *)
  next_resolve : nat;
  next_timer : nat
}.

Definition initial : state :=
  {| pendingApprovals := ∅; timers := ∅; calls := []; next_resolve := 0; next_timer := 0 |}.

(** [clearTimeout(h)] *)
Definition clearTimeout (h : nat) (st : state) : state :=
  {| pendingApprovals := pendingApprovals st;
     timers := delete h (timers st);
     calls := calls st;
     next_resolve := next_resolve st;
     next_timer := next_timer st |}.

(** [pendingApprovals.delete(approvalId)] *)
Definition deletePending (approvalId : string) (st : state) : state :=
  {| pendingApprovals := delete approvalId (pendingApprovals st);
     timers := timers st;
     calls := calls st;
     next_resolve := next_resolve st;
     next_timer := next_timer st |}.

(** Calling the [resolve] function numbered [r] with [approved]. *)
Definition callResolve (r : nat) (approved : bool) (st : state) : state :=
  {| pendingApprovals := pendingApprovals st;
     timers := timers st;
     calls := calls st ++ [(r, approved)];
     next_resolve := next_resolve st;
     next_timer := next_timer st |}.

Definition resolveApproval (approvalId : string) (approved : bool) (st : state)
  : bool * state :=
  match pendingApprovals st !! approvalId with
  | None => (false, st)
  | Some entry =>
      let st := clearTimeout (pa_timeout entry) st in
      let st := deletePending approvalId st in
      let st := callResolve (pa_resolve entry) approved st in
      (true, st)
  end.

(** [waitForApproval]: the promise executor arms the timer and stores the
    entry; the result is the new promise (the number of its [resolve]). *)
Definition waitForApproval (approvalId : string) (timeoutMs : Z) (st : state)
  : nat * state :=
  let resolve := next_resolve st in
  let timeout := next_timer st in
  (resolve,
   {| pendingApprovals :=
        <[approvalId := {| pa_id := approvalId; pa_resolve := resolve;
                           pa_timeout := timeout |}]> (pendingApprovals st);
      timers :=
        <[timeout := {| tc_approvalId := approvalId; tc_resolve := resolve;
                        tc_timeoutMs := timeoutMs |}]> (timers st);
      calls := calls st;
      next_resolve := S resolve;
      next_timer := S timeout |}).

(** The event loop runs the callback of the armed timer [h]; a handle that
    is not armed (cleared, fired, never issued) runs nothing. *)
Definition timerFires (h : nat) (st : state) : state :=
  match timers st !! h with
  | None => st
  | Some cb =>
      let st := clearTimeout h st in          (* a timeout fires once *)
      let st := deletePending (tc_approvalId cb) st in
      callResolve (tc_resolve cb) false st
  end.

(** The value a promise settles to: the argument of the first call of its
    [resolve]; later calls are ignored by the promise. *)
Fixpoint settled (r : nat) (cs : list (nat * bool)) : option bool :=
  match cs with
  | [] => None
  | (r', b) :: rest => if Nat.eqb r' r then Some b else settled r rest
  end.

(** How often the [resolve] numbered [r] was called. *)
Definition times_called (r : nat) (cs : list (nat * bool)) : nat :=
  length (filter (fun c => fst c = r) cs).

(** The three writers of the ledger. *)
Inductive op :=
| Create (approvalId : string) (timeoutMs : Z)      (* the tool's [waitForApproval] *)
| Resolve (approvalId : string) (approved : bool)   (* the /approve command *)
| Fire (h : nat).                                   (* a timer expiring *)

Definition step (o : op) (st : state) : state :=
  match o with
  | Create approvalId timeoutMs => snd (waitForApproval approvalId timeoutMs st)
  | Resolve approvalId approved => snd (resolveApproval approvalId approved st)
  | Fire h => timerFires h st
  end.

Definition run (os : list op) (st : state) : state :=
  fold_left (fun st o => step o st) os st.

Definition reachable (st : state) : Prop := exists os, st = run os initial.

(** The end of [execute] once the awaited promise has settled to
    [approved]: the outcome notice is sent best-effort (a rejected delivery
    is swallowed by [.catch]), a synchronous throw reaches the outer
    [catch]. *)
Inductive notice := Delivered | Rejected (msg : string) | ThrewSync (msg : string).

Definition finishConfirm (approved : bool) (approvalId : string) (n : notice) : jsval :=
  match n with
  | ThrewSync msg => JObj [("approved", JBool false); ("error", JStr msg)]
  | Delivered | Rejected _ =>
      JObj [("approved", JBool approved); ("approvalId", JStr approvalId)]
  end.

(** What every reachable ledger state satisfies: a stored entry points at
    its own armed timer; the [resolve] of an armed timer has not been called
    and belongs to no other armed timer; no [resolve] was called twice. *)
Record invariant (st : state) : Prop := {
  inv_entry : forall approvalId entry,
    pendingApprovals st !! approvalId = Some entry ->
    exists cb, timers st !! pa_timeout entry = Some cb
               /\ tc_approvalId cb = approvalId /\ tc_resolve cb = pa_resolve entry;
  inv_timer : forall h cb,
    timers st !! h = Some cb ->
    (tc_resolve cb ∉ (calls st).*1) /\ h < next_timer st /\ tc_resolve cb < next_resolve st;
  inv_owner : forall h h' cb cb',
    timers st !! h = Some cb -> timers st !! h' = Some cb' ->
    tc_resolve cb = tc_resolve cb' -> h = h';
  inv_once : NoDup (calls st).*1;
  inv_called : forall r, r ∈ (calls st).*1 -> r < next_resolve st
}.

End Ledger.

(** *** vault.ts and tools/vault-fill.ts: the credential bridge *)

Module Vault.

(** How a call into a collaborator ends. *)
Inductive outcome (A : Type) : Type :=
| Returned (a : A)
| Thrown (msg : string).
Arguments Returned {A} a.
Arguments Thrown {A} msg.

(** A node of an accessibility snapshot and the snapshot result. *)
Record AriaNode := {
  ref : string;
  role : string;
  name : string;
  description : option string
}.

Record SnapshotResult := {
  ok : bool;
  format : string;
  nodes : list AriaNode       (* read only when [format] is "aria" *)
}.

Record BrowserActRequest := {
  kind : string;
  act_ref : string;
  text : string;
  submit : bool
}.

(** The calls that leave the extension, each with the type of its answer:
    [getClient()] (the service-account token and the cached client),
    [client.secrets.resolve], [browserSnapshot], [browserAct] and
    [logger.info]. *)
Inductive call : Type -> Type :=
| GetClient : call (outcome unit)
| SecretsResolve (path : string) : call (outcome string)
| BrowserSnapshot (baseUrl : option string) (fmt : string) (profile : option string)
  : call (outcome SnapshotResult)
| BrowserAct (baseUrl : option string) (req : BrowserActRequest) (profile : option string)
  : call (outcome unit)
| LoggerInfo (msg : string) : call unit.

(** An [async] function body: it returns, throws, or makes a call and goes
    on with the answer. *)
Inductive io (A : Type) : Type :=
| Ret (a : A)
| Throw (msg : string)
| Call {X : Type} (c : call X) (k : X -> io A).
Arguments Ret {A} a.
Arguments Throw {A} msg.
Arguments Call {A X} c k.

Fixpoint bind {A B : Type} (p : io A) (f : A -> io B) : io B :=
  match p with
  | Ret a => f a
  | Throw msg => Throw msg
  | Call c k => Call c (fun x => bind (k x) f)
  end.

(** [try { p } catch (err) { handler(message of err) }] *)
Fixpoint try_catch {A : Type} (p : io A) (handler : string -> io A) : io A :=
  match p with
  | Ret a => Ret a
  | Throw msg => handler msg
  | Call c k => Call c (fun x => try_catch (k x) handler)
  end.

(** [await c]: the answer, or the rejection rethrown. *)
Definition await {A : Type} (c : call (outcome A)) : io A :=
  Call c (fun r => match r with Returned a => Ret a | Thrown msg => Throw msg end).

Definition perform (c : call unit) : io unit := Call c Ret.

Notation "'let*' x ':=' p 'in' q" := (bind p (fun x => q))
  (at level 10, x pattern, p at level 100, q at level 200).

(** One call with its answer; a run of a body against the collaborators
    [e], which may answer by everything that happened before. *)
Inductive event : Type :=
| Ev {X : Type} (c : call X) (x : X).

Definition env : Type := list event -> forall X : Type, call X -> X.

Fixpoint run {A : Type} (e : env) (p : io A) (h : list event) : outcome A * list event :=
  match p with
  | Ret a => (Returned a, h)
  | Throw msg => (Thrown msg, h)
  | Call c k => let x := e h _ c in run e (k x) (h ++ [Ev c x])
  end.

(** The events a run adds to the history. *)
Fixpoint trace {A : Type} (e : env) (p : io A) (h : list event) : list event :=
  match p with
  | Ret _ | Throw _ => []
  | Call c k => let x := e h _ c in Ev c x :: trace e (k x) (h ++ [Ev c x])
  end.

(** [s.replace(/op:\/\//, "")]: the first occurrence of [pat] removed. *)
Fixpoint remove_first (pat s : string) : string :=
  if startsWith s pat then substring (String.length pat) (String.length s) s
  else match s with
       | EmptyString => EmptyString
       | String c s' => String c (remove_first pat s')
       end.

Record VaultCredentials := {
  username : string;
  password : string;
  totp : option string
}.

(** [isFullRef ? itemRef : `op://${vaultPrefix ?? "Private/"}${itemRef}`] *)
Definition basePathOf (itemRef : string) (vaultPrefix : option string) : string :=
  let isFullRef := startsWith itemRef "op://" in
  if isFullRef then itemRef else "op://" ++ default "Private/" vaultPrefix ++ itemRef.

Definition vaultResolve (itemRef : string) (vaultPrefix : option string) (logger : bool)
  : io VaultCredentials :=
  let* _ := await GetClient in
  let basePath := basePathOf itemRef vaultPrefix in
  let* _ := (if logger
             then perform (LoggerInfo ("vault: resolving item " ++ dquote
                                       ++ remove_first "op://" basePath ++ dquote))
             else Ret tt) in
  let* username := await (SecretsResolve (basePath ++ "/username")) in
  let* password := await (SecretsResolve (basePath ++ "/password")) in
  let* totp := try_catch
                 (let* v := await (SecretsResolve (basePath ++ "/one-time password")) in
                  Ret (Some v))
                 (fun _ => Ret None) in
  Ret {| username := username; password := password; totp := totp |}.

Definition fillField (baseUrl profile : option string) (ref value : string) : io unit :=
  let req := {| kind := "type"; act_ref := ref; text := value; submit := false |} in
  await (BrowserAct baseUrl req profile).

(** [name + (description ?? "")] *)
Definition label (n : AriaNode) : string := name n ++ default "" (description n).

Definition USERNAME_PATTERN : regex :=
  alt [ lit "email"; lit "username"; lit "login";
        seq [lit "user"; Star Dot; lit "name"];
        seq [lit "e"; Opt (Chr "-"); lit "mail"] ].

Definition PASSWORD_PATTERN : regex :=
  alt [ lit "password"; lit "passwd"; lit "pass" ].

Definition TOTP_PATTERN : regex :=
  alt [ lit "code"; lit "otp"; lit "totp"; lit "verify"; lit "authenticat";
        lit "2fa"; lit "mfa"; seq [lit "one"; any1; lit "time"] ].

(** The three predicates given to [nodes.find]. *)
Definition is_textbox (pattern : regex) (n : AriaNode) : bool :=
  String.eqb (role n) "textbox" && test pattern (label n).

(** A string that is present and not empty, as [if (ref)] sees it. *)
Definition truthy_ref (r : option string) : option string :=
  match r with
  | Some s => if truthy s then Some s else None
  | None => None
  end.

(** [snap.format === "aria" ? snap.nodes : []] *)
Definition aria_nodes (snap : SnapshotResult) : list AriaNode :=
  if String.eqb (format snap) "aria" then nodes snap else [].

Definition filled (b : bool) : jsval := JObj [("filled", JBool b)].

Definition vaultInject (itemRef : string) (fieldMap : option (gmap string string))
    (baseUrl profile vaultPrefix : option string) (logger : bool) : io jsval :=
  let* creds := vaultResolve itemRef vaultPrefix logger in
  let usernameRef := fieldMap ≫= (fun m => m !! "username") in
  let passwordRef := fieldMap ≫= (fun m => m !! "password") in
  let* _ :=
    match truthy_ref usernameRef, truthy_ref passwordRef with
    | Some usernameRef, Some passwordRef =>
        let* _ := fillField baseUrl profile usernameRef (username creds) in
        fillField baseUrl profile passwordRef (password creds)
    | _, _ =>
        let* snap := await (BrowserSnapshot baseUrl "aria" profile) in
        if negb (ok snap)
        then Throw "Failed to take page snapshot for credential injection" else
        let nodes := aria_nodes snap in
        let emailNode := find (is_textbox USERNAME_PATTERN) nodes in
        let passwordNode := find (is_textbox PASSWORD_PATTERN) nodes in
        match emailNode, passwordNode with
        | None, _ => Throw "Could not auto-detect username/email input field on page"
        | Some _, None => Throw "Could not auto-detect password input field on page"
        | Some emailNode, Some passwordNode =>
            let* _ := fillField baseUrl profile (ref emailNode) (username creds) in
            fillField baseUrl profile (ref passwordNode) (password creds)
        end
    end in
  Ret (filled true).

Definition vaultInjectTotp (itemRef : string) (totpRef : option string)
    (baseUrl profile vaultPrefix : option string) (logger : bool) : io jsval :=
  let* creds := vaultResolve itemRef vaultPrefix logger in
  match truthy_ref (totp creds) with
  | None => Ret (filled false)
  | Some code =>
      let* _ :=
        match truthy_ref totpRef with
        | Some totpRef => fillField baseUrl profile totpRef code
        | None =>
            let* snap := await (BrowserSnapshot baseUrl "aria" profile) in
            if negb (ok snap)
            then Throw "Failed to take page snapshot for TOTP injection" else
            let nodes := aria_nodes snap in
            match find (is_textbox TOTP_PATTERN) nodes with
            | None =>
                Throw "Could not auto-detect TOTP/verification code input field on page"
            | Some codeNode => fillField baseUrl profile (ref codeNode) code
            end
        end in
      Ret (filled true)
  end.

(** [FIELD_ALIASES], own keys only. *)
Definition FIELD_ALIASES : list (string * string) :=
  [ ("credit card number", "credit card number");
    ("card number", "credit card number");
    ("ccn", "credit card number");
    ("cvv", "verification number");
    ("cvc", "verification number");
    ("security code", "verification number");
    ("expiration date", "expiry date");
    ("exp date", "expiry date");
    ("expiry", "expiry date");
    ("card expiry", "expiry date");
    ("cardholder name", "cardholder name");
    ("name on card", "cardholder name");
    ("zip", "zip or postal code");
    ("postal code", "zip or postal code");
    ("zip code", "zip or postal code") ].

Fixpoint alias (k : string) (table : list (string * string)) : option string :=
  match table with
  | [] => None
  | (k', v) :: rest => if String.eqb k' k then Some v else alias k rest
  end.

Definition resolveFieldName (name : string) : string :=
  default name (alias (toLowerCase name) FIELD_ALIASES).

(** The message pushed on [errors] for a field that failed: the field name
    in double quotes, the ref in brackets, then the message of the error. *)
Definition field_error (fieldName ref msg : string) : string :=
  "Field " ++ dquote ++ fieldName ++ dquote ++ " (ref " ++ ref ++ "): " ++ msg.

(** The body of the [for (const [ref, fieldName] of Object.entries(fields))]
    loop, on the two accumulators. *)
Fixpoint fillFields (basePath : string) (profile : string)
    (entries : list (string * string)) (filledCount : nat) (errors : list string)
  : io (nat * list string) :=
  match entries with
  | [] => Ret (filledCount, errors)
  | (ref, fieldName) :: rest =>
      let resolvedField := resolveFieldName fieldName in
      let* acc :=
        try_catch
          (let* value := await (SecretsResolve (basePath ++ "/" ++ resolvedField)) in
           let* _ := await (BrowserAct None
                              {| kind := "type"; act_ref := ref; text := value;
                                 submit := false |}
                              (Some profile)) in
           Ret (S filledCount, errors))
          (fun msg => Ret (filledCount, errors ++ [field_error fieldName ref msg])) in
      fillFields basePath profile rest (fst acc) (snd acc)
  end.

(** [execute] of the [vault_fill] tool after its parameters are read:
    [fields] is [None] for a missing or non-object value and otherwise the
    entries in [Object.entries] order; the result is the payload given to
    [jsonResult]. *)
Definition vaultFill (vaultPrefix : option string) (vaultItem : string)
    (fields : option (list (string * string))) (profile : option string) : io jsval :=
  let profile := default "openclaw" profile in
  match fields with
  | None | Some [] =>
      Ret (JObj [("success", JBool false);
                 ("error", JStr "fields is required and must be a non-empty object mapping refs to vault field names")])
  | Some fields =>
      try_catch
        (let* _ := await GetClient in
         let basePath := basePathOf vaultItem vaultPrefix in
         let* _ := perform (LoggerInfo ("vault_fill: resolving "
                                        ++ pretty (length fields) ++ " fields from "
                                        ++ dquote ++ remove_first "op://" basePath
                                        ++ dquote)) in
         let* acc := fillFields basePath profile fields 0 [] in
         let filledCount := fst acc in
         let errors := snd acc in
         Ret (JObj ([("success", JBool (Nat.eqb (length errors) 0));
                     ("filled", JNum (Z.of_nat filledCount));
                     ("total", JNum (Z.of_nat (length fields)))]
                    ++ (if Nat.ltb 0 (length errors)
                        then [("errors", JArr (map JStr errors))] else []))))
        (fun msg => Ret (JObj [("success", JBool false); ("error", JStr msg)]))
  end.

(** **** Reading a run *)

(** Collaborators that answer the same whatever happened before: a vault
    table, one page, and a browser that decides on the request. *)
Definition scripted (vault : string -> outcome string) (page : outcome SnapshotResult)
    (act : BrowserActRequest -> outcome unit) : env :=
  fun _ X c =>
    match c in call X return X with
    | GetClient => Returned tt
    | SecretsResolve path => vault path
    | BrowserSnapshot _ _ _ => page
    | BrowserAct _ req _ => act req
    | LoggerInfo _ => tt
    end.

Definition is_snapshot {X : Type} (c : call X) : bool :=
  match c with
  | BrowserSnapshot _ _ _ => true
  | _ => false
  end.

Definition not_snapshot : forall X : Type, call X -> Prop :=
  fun X c => is_snapshot c = false.

Definition is_act {X : Type} (c : call X) : bool :=
  match c with
  | BrowserAct _ _ _ => true
  | _ => false
  end.

(** The vault paths asked for, and the element refs typed into, in order. *)
Definition resolved_path (ev : event) : option string :=
  match ev with
  | Ev (SecretsResolve path) _ => Some path
  | Ev _ _ => None
  end.

Definition typed_ref (ev : event) : option string :=
  match ev with
  | Ev (BrowserAct _ req _) _ => Some (act_ref req)
  | Ev _ _ => None
  end.

Definition resolved_paths (h : list event) : list string := omap resolved_path h.
Definition typed_refs (h : list event) : list string := omap typed_ref h.

(** The vault path of one entry of [fields]. *)
Definition entry_path (basePath : string) (entry : string * string) : string :=
  basePath ++ "/" ++ resolveFieldName (snd entry).

(** The payload [vault_fill] returns once the loop has run. *)
Definition fillPayload (filledCount : nat) (errors : list string) (total : nat) : jsval :=
  JObj ([("success", JBool (Nat.eqb (length errors) 0));
         ("filled", JNum (Z.of_nat filledCount));
         ("total", JNum (Z.of_nat total))]
        ++ (if Nat.ltb 0 (length errors) then [("errors", JArr (map JStr errors))] else [])).

(** A browser action that threw. *)
Definition failed_act (ev : event) : option string :=
  match ev with
  | Ev (BrowserAct _ _ _) (Thrown msg) => Some msg
  | Ev _ _ => None
  end.

Definition failed_acts (h : list event) : list string := omap failed_act h.

(** Every call the body can make, whatever the answers, satisfies [P]. *)
Inductive all_calls (P : forall X : Type, call X -> Prop) {A : Type} : io A -> Prop :=
| all_ret (a : A) : all_calls P (Ret a)
| all_throw (msg : string) : all_calls P (Throw msg)
| all_call {X : Type} (c : call X) (k : X -> io A) :
    P X c -> (forall x, all_calls P (k x)) -> all_calls P (Call c k).

(** A body that stops with the error of the first browser action that
    throws. *)
Inductive fail_fast {A : Type} : io A -> Prop :=
| ff_ret (a : A) : fail_fast (Ret a)
| ff_throw (msg : string) : fail_fast (Throw msg)
| ff_act (baseUrl : option string) (req : BrowserActRequest) (profile : option string)
    (k : outcome unit -> io A) :
    (forall msg, k (Thrown msg) = Throw msg) ->
    fail_fast (k (Returned tt)) ->
    fail_fast (Call (BrowserAct baseUrl req profile) k)
| ff_other {X : Type} (c : call X) (k : X -> io A) :
    is_act c = false -> (forall x, fail_fast (k x)) -> fail_fast (Call c k).

(** **** What a run shows of the secrets *)

Section Views.

(** [vis path value] is what an observer may learn of the secret [value]
    stored at [path]; the constant function shows nothing. *)
Variable vis : string -> string -> bool.

Inductive call_view : Type :=
| CVGetClient
| CVResolve (path : string)
| CVSnapshot (baseUrl : option string) (fmt : string) (profile : option string)
| CVAct (baseUrl : option string) (kind ref : string) (submit : bool) (profile : option string)
| CVLog (msg : string).

Inductive answer_view : Type :=
| AVNone
| AVDone (r : outcome unit)
| AVSecret (r : outcome bool)
| AVPage (r : outcome SnapshotResult).

(** A call without the text it types. *)
Definition view_call {X : Type} (c : call X) : call_view :=
  match c with
  | GetClient => CVGetClient
  | SecretsResolve path => CVResolve path
  | BrowserSnapshot baseUrl fmt profile => CVSnapshot baseUrl fmt profile
  | BrowserAct baseUrl req profile =>
      CVAct baseUrl (kind req) (act_ref req) (submit req) profile
  | LoggerInfo msg => CVLog msg
  end.

(** An answer without the secret it carries. *)
Definition view_answer {X : Type} (c : call X) : X -> answer_view :=
  match c in call X return X -> answer_view with
  | GetClient => fun r => AVDone r
  | SecretsResolve path => fun r =>
      AVSecret (match r with
                | Returned value => Returned (vis path value)
                | Thrown msg => Thrown msg
                end)
  | BrowserSnapshot _ _ _ => fun r => AVPage r
  | BrowserAct _ _ _ => fun r => AVDone r
  | LoggerInfo _ => fun _ => AVNone
  end.

Definition view (ev : event) : call_view * answer_view :=
  match ev with
  | Ev c x => (view_call c, view_answer c x)
  end.

(** Two sets of collaborators that cannot be told apart by the views: after
    histories with the same views, calls with the same view get answers with
    the same view. *)
Definition env_equiv (e1 e2 : env) : Prop :=
  forall (h1 h2 : list event) (X1 X2 : Type) (c1 : call X1) (c2 : call X2),
    map view h1 = map view h2 ->
    view_call c1 = view_call c2 ->
    view_answer c1 (e1 h1 X1 c1) = view_answer c2 (e2 h2 X2 c2).

(** Two bodies that make calls with the same views and, on answers with the
    same views, go on in step and end in results related by [R]. *)
Inductive sim {A : Type} (R : A -> A -> Prop) : io A -> io A -> Prop :=
| sim_ret (a1 a2 : A) : R a1 a2 -> sim R (Ret a1) (Ret a2)
| sim_throw (msg : string) : sim R (Throw msg) (Throw msg)
| sim_call {X1 X2 : Type} (c1 : call X1) (c2 : call X2) (k1 : X1 -> io A) (k2 : X2 -> io A) :
    view_call c1 = view_call c2 ->
    (forall x1 x2, view_answer c1 x1 = view_answer c2 x2 -> sim R (k1 x1) (k2 x2)) ->
    sim R (Call c1 k1) (Call c2 k2).

Definition outcome_rel {A : Type} (R : A -> A -> Prop) (o1 o2 : outcome A) : Prop :=
  match o1, o2 with
  | Returned a1, Returned a2 => R a1 a2
  | Thrown m1, Thrown m2 => m1 = m2
  | _, _ => False
  end.

(** What two resolved credential records share: whether a TOTP code is
    there, and what [vis] shows of it. *)
Definition creds_rel (totpPath : string) (c1 c2 : VaultCredentials) : Prop :=
  match totp c1, totp c2 with
  | Some v1, Some v2 => vis totpPath v1 = vis totpPath v2
  | None, None => True
  | _, _ => False
  end.

End Views.

(** The observer of a TOTP injection: it may learn whether the code stored
    at [totpPath] is empty, and nothing else. *)
Definition totp_emptiness (totpPath : string) : string -> string -> bool :=
  fun path value => if String.eqb path totpPath then truthy value else true.

(** The observer that learns nothing of any secret. *)
Definition nothing : string -> string -> bool := fun _ _ => true.

End Vault.

(** *** index.ts: the hooks as [register] wires them *)

Module Wiring.

(** The two closure variables behind the registered hooks: the tracker's
    [currentUrl] and the guard's [lastKnownUrl]. *)
Record hooks := {
  currentUrl : option string;
  lastKnownUrl : option string
}.

Definition start : hooks := {| currentUrl := None; lastKnownUrl := None |}.

(** [api.on("before_tool_call", guardHandler)], the guard being created with
    [getCurrentUrl: urlTracker.getCurrentUrl]. *)
Definition before_tool_call (url_hostname : url_parser) (sensitiveDomains : list string)
    (event : BeforeToolCallEvent) (st : hooks) : GuardResult * hooks :=
  let r := guardHandler url_hostname sensitiveDomains
             (Some (getCurrentUrl (currentUrl st))) event (lastKnownUrl st) in
  (fst r, {| currentUrl := currentUrl st; lastKnownUrl := snd r |}).

(** [api.on("after_tool_call", (event) => urlTracker.handler(event))] *)
Definition after_tool_call (event : AfterToolCallEvent) (st : hooks) : hooks :=
  {| currentUrl := trackerHandler event (currentUrl st); lastKnownUrl := lastKnownUrl st |}.

End Wiring.

(** A pattern all of whose literal characters are ASCII. *)
Fixpoint ascii_pattern (r : regex) : bool :=
  match r with
  | Void | Eps | Dot => true
  | Chr c => (N_of_ascii c <? 128)%N
  | Seq r1 r2 | Alt r1 r2 => ascii_pattern r1 && ascii_pattern r2
  | Opt r1 | Star r1 => ascii_pattern r1
  end.

(** *** Whitespace in JavaScript strings *)

Module JsText.

(** The code units below 256 that [\s] and [trim] treat as white space:
    TAB, LF, VT, FF, CR, SPACE and NO-BREAK SPACE. *)
Definition is_space (c : ascii) : bool :=
  let n := N_of_ascii c in
  ((9 <=? n) && (n <=? 13) || (n =? 32) || (n =? 160))%N.

Fixpoint trimStart (s : string) : string :=
  match s with
  | EmptyString => EmptyString
  | String c s' => if is_space c then trimStart s' else s
  end.

Fixpoint trimEnd (s : string) : string :=
  match s with
  | EmptyString => EmptyString
  | String c s' =>
      let t := trimEnd s' in
      if is_space c && String.eqb t "" then EmptyString else String c t
  end.

(** [s.trim()] *)
Definition trim (s : string) : string := trimEnd (trimStart s).

(** [s.split(/\s+/)], reading [s] with the piece collected so far in [cur];
    [skipping] says that the code unit before was white space. *)
Fixpoint split_from (s cur : string) (skipping : bool) : list string :=
  match s with
  | EmptyString => [cur]
  | String c s' =>
      if is_space c
      then (if skipping then split_from s' cur true else cur :: split_from s' "" true)
      else split_from s' (cur ++ String c "") false
  end.

Definition split_ws (s : string) : list string := split_from s "" false.

Fixpoint all_space (s : string) : bool :=
  match s with
  | EmptyString => true
  | String c s' => is_space c && all_space s'
  end.

Fixpoint no_space (s : string) : bool :=
  match s with
  | EmptyString => true
  | String c s' => negb (is_space c) && no_space s'
  end.

End JsText.

(** *** index.ts: the /approve command *)

Module Approve.

(** [decision === "yes" || decision === "y" || decision === "approve"] *)
Definition accepts (decision : option string) : bool :=
  match decision with
  | Some d => String.eqb d "yes" || String.eqb d "y" || String.eqb d "approve"
  | None => false
  end.

(** The command handler: [args] is [ctx.args]; the reply text and the
    ledger afterwards. *)
Definition handler (args : option string) (st : Ledger.state) : string * Ledger.state :=
  let parts := JsText.split_ws (JsText.trim (default "" args)) in
  let approvalId := default "" (parts !! 0) in
  let decision := toLowerCase <$> (parts !! 1) in
  if negb (truthy approvalId) then ("Usage: /approve <id> yes|no", st) else
  let approved := accepts decision in
  let r := Ledger.resolveApproval approvalId approved st in
  if negb (fst r)
  then (("No pending approval found with ID " ++ dquote ++ approvalId ++ dquote
         ++ ". It may have already expired.")%string, snd r)
  else ((if approved then "Approved action " ++ approvalId ++ "."
         else "Denied action " ++ approvalId ++ ".")%string, snd r).

End Approve.

(** *** Bodies over any set of calls *)

(** The same reading of an [async] body as in [Vault], for tools whose calls
    are not those of the credential bridge. *)
Module Free.

Import Vault.

Section Prog.

Variable E : Type -> Type.

Inductive prog (A : Type) : Type :=
| Ret (a : A)
| Throw (msg : string)
| Call {X : Type} (c : E X) (k : X -> prog A).

Arguments Ret {A} a.
Arguments Throw {A} msg.
Arguments Call {A X} c k.

Fixpoint bind {A B : Type} (p : prog A) (f : A -> prog B) : prog B :=
  match p with
  | Ret a => f a
  | Throw msg => Throw msg
  | Call c k => Call c (fun x => bind (k x) f)
  end.

Fixpoint try_catch {A : Type} (p : prog A) (handler : string -> prog A) : prog A :=
  match p with
  | Ret a => Ret a
  | Throw msg => handler msg
  | Call c k => Call c (fun x => try_catch (k x) handler)
  end.

Definition await {A : Type} (c : E (outcome A)) : prog A :=
  Call c (fun r => match r with Returned a => Ret a | Thrown msg => Throw msg end).

Definition perform {A : Type} (c : E A) : prog A := Call c Ret.

Inductive event : Type :=
| Ev {X : Type} (c : E X) (x : X).

Definition env : Type := list event -> forall X : Type, E X -> X.

Fixpoint run {A : Type} (e : env) (p : prog A) (h : list event) : outcome A * list event :=
  match p with
  | Ret a => (Returned a, h)
  | Throw msg => (Thrown msg, h)
  | Call c k => let x := e h _ c in run e (k x) (h ++ [Ev c x])
  end.

Fixpoint trace {A : Type} (e : env) (p : prog A) (h : list event) : list event :=
  match p with
  | Ret _ | Throw _ => []
  | Call c k => let x := e h _ c in Ev c x :: trace e (k x) (h ++ [Ev c x])
  end.

(** Every call the body can make satisfies [P]. *)
Inductive all_calls (P : forall X : Type, E X -> Prop) {A : Type} : prog A -> Prop :=
| all_ret (a : A) : all_calls P (Ret a)
| all_throw (msg : string) : all_calls P (Throw msg)
| all_call {X : Type} (c : E X) (k : X -> prog A) :
    P X c -> (forall x, all_calls P (k x)) -> all_calls P (Call c k).

(** [holds p tr Q]: whatever the collaborators answer, the body [p], started
    after the events [tr], ends in an outcome and a list of events that
    satisfy [Q]. *)
Fixpoint holds {A : Type} (p : prog A) (tr : list event)
    (Q : outcome A -> list event -> Prop) : Prop :=
  match p with
  | Ret a => Q (Returned a) tr
  | Throw msg => Q (Thrown msg) tr
  | Call c k => forall x, holds (k x) (tr ++ [Ev c x]) Q
  end.

End Prog.

Arguments Ret {E A} a.
Arguments Throw {E A} msg.
Arguments Call {E A X} c k.
Arguments bind {E A B} p f.
Arguments try_catch {E A} p handler.
Arguments await {E A} c.
Arguments perform {E A} c.
Arguments Ev {E X} c x.
Arguments run {E A} e p h.
Arguments trace {E A} e p h.
Arguments all_calls {E} P {A} p.
Arguments holds {E A} p tr Q.

End Free.

(** *** tools/confirm-action.ts: the [confirm_action] tool *)

Module Confirm.

Import Vault.

(** An entry of [cfg.approvals.exec.targets]. *)
Record Target := {
  channel : string;
  to : string;
  accountId : option string;
  threadId : option string
}.

Record ScreenshotResult := {
  s_ok : bool;
  s_path : string
}.

(** One element of [payloads]: the text and the media (url, mime). *)
Record Payload := {
  p_text : string;
  p_media : list (string * string)
}.

(** The arguments of [deliverOutboundPayloads] besides [cfg]; [bestEffort]
    is always true. *)
Record Delivery := {
  d_channel : string;
  d_to : string;
  d_accountId : option string;
  d_threadId : option string;
  d_payloads : list Payload
}.

(** The calls of [execute].  [RandomId] is
    [crypto.randomUUID().slice(0, 8)]; [LoadConfig] answers with the targets
    of the loaded configuration ([cfg.approvals?.exec?.targets ?? []]);
    [Deliver] answers as [Ledger.notice] tells; [WaitForApproval] is the
    awaited [waitForApproval] and answers with what the promise settles
    to. *)
Inductive ccall : Type -> Type :=
| RandomId : ccall string
| Screenshot (profile : string) : ccall (outcome ScreenshotResult)
| LoadConfig : ccall (outcome (list Target))
| Deliver (d : Delivery) : ccall Ledger.notice
| LogWarn (msg : string) : ccall unit
| LogInfo (msg : string) : ccall unit
| WaitForApproval (approvalId : string) (timeoutMs : Z) : ccall bool.

Notation "'do*' x ':=' p 'in' q" := (Free.bind p (fun x => q))
  (at level 10, x pattern, p at level 100, q at level 200).

(** The emoji of the message literals lie outside the code units a [string]
    holds here; they are kept as their UTF-8 bytes.  The texts are only
    handed to [Deliver]. *)
Definition bytes (l : list nat) : string :=
  fold_right (fun n s => String (ascii_of_nat n) s) EmptyString l.

Definition CART : string := bytes [240; 159; 155; 146].
Definition CHECK : string := bytes [226; 156; 133].
Definition CROSS : string := bytes [226; 157; 140].
Definition newline : string := bytes [10].

Definition approvalText (action details approvalId : string) (approvalTimeout : Z) : string :=
  join newline
    [ (CART ++ " Action approval required")%string;
      ("ID: " ++ approvalId)%string;
      "";
      ("**Action:** " ++ action)%string;
      "";
      details;
      "";
      ("Reply: /approve " ++ approvalId ++ " yes or /approve " ++ approvalId ++ " no")%string;
      ("Expires in " ++ pretty approvalTimeout ++ "s")%string ].

(** The first delivery is awaited bare: a rejection is thrown. *)
Definition deliverRequest (d : Delivery) : Free.prog ccall unit :=
  Free.Call (Deliver d)
    (fun n => match n with
              | Ledger.Delivered => Free.Ret tt
              | Ledger.Rejected msg | Ledger.ThrewSync msg => Free.Throw msg
              end).

(** The second one carries [.catch(() => {})]: only a synchronous throw
    escapes. *)
Definition deliverOutcome (d : Delivery) : Free.prog ccall unit :=
  Free.Call (Deliver d)
    (fun n => match n with
              | Ledger.Delivered | Ledger.Rejected _ => Free.Ret tt
              | Ledger.ThrewSync msg => Free.Throw msg
              end).

Definition takeScreenshotPath (takeScreenshot : bool) (profile : string)
  : Free.prog ccall (option string) :=
  if takeScreenshot then
    Free.try_catch
      (do* result := Free.await (Screenshot profile) in
       Free.Ret (if s_ok result then Some (s_path result) else None))
      (fun msg =>
         do* _ := Free.perform (LogWarn ("confirm_action: screenshot failed: " ++ msg)) in
         Free.Ret None)
  else Free.Ret None.

(** [execute] after its parameters are read: [takeScreenshot] is
    [params.screenshot !== false]. *)
Definition execute (approvalChannel : string) (approvalTimeout : Z)
    (action details : string) (takeScreenshot : bool) (profile : option string)
  : Free.prog ccall jsval :=
  let profile := default "openclaw" profile in
  do* approvalId := Free.perform RandomId in
  Free.try_catch
    (let text := approvalText action details approvalId approvalTimeout in
     do* screenshotPath := takeScreenshotPath takeScreenshot profile in
     do* targets := Free.await LoadConfig in
     let channel := approvalChannel in
     match find (fun t => String.eqb (Confirm.channel t) channel) targets with
     | None =>
         Free.Ret
           (JObj [("approved", JBool false);
                  ("error",
                   JStr ("No approval target configured for channel " ++ dquote ++ channel
                         ++ dquote
                         ++ ". Add a target to approvals.exec.targets in openclaw.json."))])
     | Some target =>
         let payloads :=
           match truthy_ref screenshotPath with
           | Some path => [ {| p_text := text; p_media := [(path, "image/jpeg")] |} ]
           | None => [ {| p_text := text; p_media := [] |} ]
           end in
         let send (payloads : list Payload) : Delivery :=
           {| d_channel := channel; d_to := to target; d_accountId := accountId target;
              d_threadId := threadId target; d_payloads := payloads |} in
         do* _ := deliverRequest (send payloads) in
         do* _ := Free.perform
                    (LogInfo ("confirm_action: sent approval request " ++ approvalId
                              ++ " to " ++ channel ++ ":" ++ to target)) in
         do* approved := Free.perform (WaitForApproval approvalId (approvalTimeout * 1000)%Z) in
         let resultText :=
           (if (approved : bool) then CHECK ++ " Action approved: " ++ action
            else CROSS ++ " Action denied/timed out: " ++ action)%string in
         do* _ := deliverOutcome (send [ {| p_text := resultText; p_media := [] |} ]) in
         Free.Ret (JObj [("approved", JBool approved); ("approvalId", JStr approvalId)])
     end)
    (fun msg => Free.Ret (JObj [("approved", JBool false); ("error", JStr msg)])).

(** What a run shows. *)
Definition is_deliver {X : Type} (c : ccall X) : bool :=
  match c with
  | Deliver _ => true
  | _ => false
  end.

Definition is_wait {X : Type} (c : ccall X) : bool :=
  match c with
  | WaitForApproval _ _ => true
  | _ => false
  end.

(** The answers of the [WaitForApproval] calls of a run. *)
Definition waited (ev : Free.event ccall) : option (string * bool) :=
  match ev with
  | Free.Ev (WaitForApproval approvalId _) approved => Some (approvalId, approved)
  | Free.Ev _ _ => None
  end.

(** The deliveries of a run, each with how it ended. *)
Definition delivered (ev : Free.event ccall) : option (Delivery * Ledger.notice) :=
  match ev with
  | Free.Ev (Deliver d) n => Some (d, n)
  | Free.Ev _ _ => None
  end.

End Confirm.

(** ** Part II: properties *)

Local Open Scope string_scope.

(** *** Strings *)

Section StringFacts.

Lemma append_empty_r (s : string) : s ++ "" = s.
Proof. induction s as [|c s IH]; simpl; [reflexivity | now rewrite IH]. Qed.

Lemma append_assoc (a b c : string) : (a ++ b) ++ c = a ++ b ++ c.
Proof. induction a as [|x a IH]; simpl; [reflexivity | now rewrite IH]. Qed.

Lemma length_append (a b : string) :
  String.length (a ++ b) = String.length a + String.length b.
Proof. induction a as [|x a IH]; simpl; [reflexivity | now rewrite IH]. Qed.

(** Two strings with a common tail and equal heads up to that tail agree. *)
Lemma append_cancel_r (a b c : string) : a ++ c = b ++ c -> a = b.
Proof.
  revert b. induction a as [|x a IH]; intros [|y b] H; simpl in H.
  - reflexivity.
  - apply (f_equal String.length) in H. simpl in H. rewrite length_append in H. lia.
  - apply (f_equal String.length) in H. simpl in H. rewrite length_append in H. lia.
  - injection H as -> H. f_equal. now apply IH.
Qed.

Lemma toLowerCase_app (a b : string) :
  toLowerCase (a ++ b) = toLowerCase a ++ toLowerCase b.
Proof. induction a as [|x a IH]; simpl; [reflexivity | now rewrite IH]. Qed.

Lemma startsWith_spec (s p : string) :
  startsWith s p = true <-> exists b, s = p ++ b.
Proof.
  revert s. induction p as [|a p IH]; intros s; simpl.
  - split; [intros _; now exists s | reflexivity].
  - destruct s as [|b s].
    + split; [discriminate | intros [t Ht]; discriminate].
    + destruct (Ascii.eqb a b) eqn:E.
      * apply Ascii.eqb_eq in E as ->. rewrite IH.
        split; intros [t Ht]; exists t; [now rewrite Ht | now injection Ht].
      * split; [discriminate |].
        intros [t Ht]. injection Ht as -> _. now rewrite Ascii.eqb_refl in E.
Qed.

Lemma endsWith_spec (s suffix : string) :
  endsWith s suffix = true <-> exists a, s = a ++ suffix.
Proof.
  induction s as [|c s IH]; cbn [endsWith].
  - rewrite orb_false_r, String.eqb_eq. split.
    + intros <-. now exists "".
    + intros [[|x a] Ha]; simpl in Ha; [now rewrite <- Ha | discriminate].
  - rewrite orb_true_iff, String.eqb_eq, IH. split.
    + intros [<- | [a ->]]; [now exists "" | now exists (String c a)].
    + intros [[|x a] Ha]; simpl in Ha; [now left | right].
      injection Ha as -> ->. now exists a.
Qed.

Lemma includes_spec (s t : string) :
  includes s t = true <-> exists a b, s = a ++ t ++ b.
Proof.
  induction s as [|c s IH]; cbn [includes].
  - rewrite orb_false_r, startsWith_spec. split.
    + intros [b Hb]. now exists "", b.
    + intros [[|x a] [b Hb]]; simpl in Hb; [now exists b | discriminate].
  - rewrite orb_true_iff, IH, startsWith_spec. split.
    + intros [[b Hb] | [a [b ->]]]; [now exists "", b | now exists (String c a), b].
    + intros [[|x a] [b Hb]]; simpl in Hb; [left; now exists b | right].
      injection Hb as -> ->. now exists a, b.
Qed.

Lemma truthy_true (s : string) : truthy s = true <-> s <> "".
Proof.
  unfold truthy. rewrite negb_true_iff. split.
  - intros H ->. now rewrite String.eqb_refl in H.
  - intros H. destruct (String.eqb s "") eqn:E; [|reflexivity].
    apply String.eqb_eq in E. contradiction.
Qed.

End StringFacts.

(** *** Regular expressions: [test] finds exactly the matches *)

Section RegexFacts.

Lemma append_eq_empty (a b : string) : a ++ b = "" -> a = "" /\ b = "".
Proof. destruct a; simpl; [now split | discriminate]. Qed.

Lemma nullable_spec (r : regex) : nullable r = true <-> matches r "".
Proof.
  split.
  - induction r; simpl; intros H; try discriminate.
    + constructor.
    + apply andb_true_iff in H as [H1 H2].
      change "" with ("" ++ ""). constructor; auto.
    + apply orb_true_iff in H as [H | H]; [apply m_alt_l | apply m_alt_r]; auto.
    + apply m_opt_none.
    + apply m_star_nil.
  - intros H. remember "" as s eqn:Hs.
    induction H; simpl; try discriminate; try reflexivity.
    + apply append_eq_empty in Hs as [-> ->]. now rewrite IHmatches1, IHmatches2.
    + now rewrite IHmatches.
    + rewrite IHmatches; [apply orb_true_r | exact Hs].
Qed.

(** A match of [r*] that starts with [x] starts with a match of [r] that
    starts with [x]. *)
Lemma star_cons_inv (r : regex) (x : ascii) (s : string) :
  matches (Star r) (String x s) ->
  exists s1 s2, s = s1 ++ s2 /\ matches r (String x s1) /\ matches (Star r) s2.
Proof.
  intros H. remember (Star r) as r' eqn:Hr. remember (String x s) as t eqn:Ht.
  revert s Ht. induction H; try discriminate; intros s Ht.
  injection Hr as ->. destruct s1 as [|y s1]; simpl in Ht.
  - now apply IHmatches2.
  - injection Ht as -> <-. now exists s1, s2.
Qed.

Lemma deriv_sound (x : ascii) (r : regex) (s : string) :
  matches (deriv x r) s -> matches r (String x s).
Proof.
  revert s. induction r; simpl; intros s H.
  - inversion H.
  - inversion H.
  - destruct (chr_matches c x) eqn:E; inversion H. now constructor.
  - destruct (dot_matches x) eqn:E; inversion H. now constructor.
  - destruct (nullable r1) eqn:E.
    + inversion H as [| | | | ? ? ? H1 | ? ? ? H2 | | | |]; subst.
      * inversion H1; subst. change (String x (s1 ++ s2)) with (String x s1 ++ s2).
        constructor; auto.
      * change (String x s) with ("" ++ String x s).
        constructor; [now apply nullable_spec | auto].
    + inversion H; subst. change (String x (s1 ++ s2)) with (String x s1 ++ s2).
      constructor; auto.
  - inversion H; subst; [apply m_alt_l | apply m_alt_r]; auto.
  - apply m_opt_some. auto.
  - inversion H; subst. change (String x (s1 ++ s2)) with (String x s1 ++ s2).
    constructor; auto.
Qed.

Lemma deriv_complete (x : ascii) (r : regex) (s : string) :
  matches r (String x s) -> matches (deriv x r) s.
Proof.
  revert s. induction r; simpl; intros s H.
  - inversion H.
  - inversion H.
  - inversion H; subst. match goal with Hc : chr_matches _ _ = true |- _ => rewrite Hc end.
    constructor.
  - inversion H; subst. match goal with Hc : dot_matches _ = true |- _ => rewrite Hc end.
    constructor.
  - inversion H as [| | | ? ? s1 s2 H1 H2 Hr Hs | | | | | |]; subst.
    destruct s1 as [|y s1]; simpl in Hs.
    + subst s2. apply nullable_spec in H1. rewrite H1. apply m_alt_r. auto.
    + injection Hs as -> <-. destruct (nullable r1).
      * apply m_alt_l. constructor; auto.
      * constructor; auto.
  - inversion H; subst; [apply m_alt_l | apply m_alt_r]; auto.
  - inversion H; subst. auto.
  - apply star_cons_inv in H as [s1 [s2 [-> [H1 H2]]]]. constructor; auto.
Qed.

Lemma match_here_spec (r : regex) (s : string) :
  match_here r s = true <-> exists m rest, s = m ++ rest /\ matches r m.
Proof.
  revert r. induction s as [|x s IH]; intros r; cbn [match_here].
  - rewrite orb_false_r, nullable_spec. split.
    + intros H. now exists "", "".
    + intros [m [rest [Hs H]]]. symmetry in Hs. apply append_eq_empty in Hs as [-> _].
      exact H.
  - rewrite orb_true_iff, nullable_spec, IH. split.
    + intros [H | [m [rest [-> H]]]].
      * now exists "", (String x s).
      * exists (String x m), rest. split; [reflexivity | now apply deriv_sound].
    + intros [[|y m] [rest [Hs H]]]; simpl in Hs.
      * now left.
      * injection Hs as -> ->. right. exists m, rest. split; [reflexivity|].
        now apply deriv_complete.
Qed.

(** [test] answers true exactly when some substring matches the pattern. *)
Lemma test_spec (r : regex) (s : string) :
  test r s = true <-> exists pre m post, s = pre ++ m ++ post /\ matches r m.
Proof.
  induction s as [|x s IH]; cbn [test].
  - rewrite orb_false_r, match_here_spec. split.
    + intros [m [rest [Hs H]]]. now exists "", m, rest.
    + intros [[|y pre] [m [post [Hs H]]]]; simpl in Hs; [|discriminate].
      now exists m, post.
  - rewrite orb_true_iff, match_here_spec, IH. split.
    + intros [[m [rest [Hs H]]] | [pre [m [post [-> H]]]]].
      * now exists "", m, rest.
      * now exists (String x pre), m, post.
    + intros [[|y pre] [m [post [Hs H]]]]; simpl in Hs.
      * left. now exists m, post.
      * injection Hs as -> ->. right. now exists pre, m, post.
Qed.

End RegexFacts.

(** *** The guard and the URL tracker *)

Section GuardFacts.

Variable url_hostname : url_parser.
Variable sensitiveDomains : list string.

(** What [host_matches] decides, on the lower-cased hostname and domain. *)
Lemma host_matches_spec (hostname domain : string) :
  host_matches hostname domain = true <->
  hostname = toLowerCase domain
  \/ hostname = "www." ++ toLowerCase domain
  \/ exists sub, hostname = sub ++ "." ++ toLowerCase domain.
Proof.
  unfold host_matches. rewrite !orb_true_iff, !String.eqb_eq, endsWith_spec. tauto.
Qed.

Lemma isSensitiveDomain_parsed (url h : string) (domains : list string) :
  url_hostname url = Some h ->
  isSensitiveDomain url_hostname url domains = true <->
  exists d, In d domains /\ host_matches (toLowerCase h) d = true.
Proof.
  intros Hh. unfold isSensitiveDomain. rewrite Hh. apply existsb_exists.
Qed.

Lemma isSensitiveDomain_malformed (url : string) (domains : list string) :
  url_hostname url = None ->
  isSensitiveDomain url_hostname url domains = true <->
  exists d, In d domains /\ includes (toLowerCase url) (toLowerCase d) = true.
Proof.
  intros Hh. unfold isSensitiveDomain. rewrite Hh. apply existsb_exists.
Qed.

(** A hostname that only glues a word in front of the domain is none of the
    three accepted shapes. *)
Lemma host_matches_glued (d : string) :
  host_matches (toLowerCase ("not" ++ d)) d = false.
Proof.
  apply not_true_is_false. rewrite host_matches_spec, toLowerCase_app.
  change (toLowerCase "not") with "not".
  intros [H | [H | [sub H]]].
  - apply (f_equal String.length) in H. rewrite length_append in H. simpl in H. lia.
  - apply (f_equal String.length) in H. rewrite !length_append in H. simpl in H. lia.
  - rewrite <- append_assoc in H. apply append_cancel_r in H.
    destruct sub as [|a [|b [|c sub]]]; simpl in H; try discriminate.
    destruct sub; discriminate.
Qed.

(** The handler never changes [lastKnownUrl] on an [act] call, and always
    answers [Pass] or the fixed refusal. *)
Lemma guardHandler_cases (getter : option (option string))
    (event : BeforeToolCallEvent) (last : option string) :
  fst (guardHandler url_hostname sensitiveDomains getter event last) = Pass
  \/ fst (guardHandler url_hostname sensitiveDomains getter event last) = Block blockReason.
Proof.
  unfold guardHandler.
  repeat (match goal with
          | |- context [if ?b then _ else _] => destruct b
          | |- context [match ?x with _ => _ end] => destruct x
          end; simpl; auto).
Qed.

Lemma guardHandler_act (getter : option (option string))
    (event : BeforeToolCallEvent) (last : option string) (u : string) :
  toolName event = "browser" ->
  action_of (params event) = "act" ->
  effective_url getter last = Some u ->
  guardHandler url_hostname sensitiveDomains getter event last =
  (if truthy u && isSensitiveDomain url_hostname u sensitiveDomains
      && test PURCHASE_KEYWORDS (extractActText (params event))
   then Block blockReason else Pass, last).
Proof.
  intros Htool Hact Hurl. unfold guardHandler.
  rewrite Htool, Hact. simpl.
  destruct (as_string (get_prop (params event) "targetUrl")); rewrite Hurl;
    destruct (truthy u); simpl; try reflexivity;
    destruct (isSensitiveDomain url_hostname u sensitiveDomains); simpl; try reflexivity;
    destruct (test PURCHASE_KEYWORDS (extractActText (params event))); reflexivity.
Qed.

Lemma guardHandler_not_act (getter : option (option string))
    (event : BeforeToolCallEvent) (last : option string) :
  action_of (params event) <> "act" ->
  fst (guardHandler url_hostname sensitiveDomains getter event last) = Pass.
Proof.
  intros Hact. unfold guardHandler.
  destruct (negb (String.eqb (toolName event) "browser")); [reflexivity|].
  destruct (String.eqb (action_of (params event)) "act") eqn:E.
  - apply String.eqb_eq in E. contradiction.
  - reflexivity.
Qed.

Lemma trackerHandler_other (event : AfterToolCallEvent) (currentUrl : option string) :
  a_toolName event <> "browser" -> trackerHandler event currentUrl = currentUrl.
Proof.
  intros H. unfold trackerHandler.
  destruct (String.eqb (a_toolName event) "browser") eqn:E; [|reflexivity].
  apply String.eqb_eq in E. contradiction.
Qed.

(** On a browser event the result's [url] wins over a navigation target. *)
Lemma trackerHandler_browser (event : AfterToolCallEvent) (currentUrl : option string) :
  a_toolName event = "browser" ->
  trackerHandler event currentUrl =
  match as_string (get_prop (a_result event) "url") with
  | Some u => Some u
  | None =>
      match String.eqb (action_of (a_params event)) "navigate",
            as_string (get_prop (a_params event) "targetUrl") with
      | true, Some targetUrl => Some targetUrl
      | _, _ => currentUrl
      end
  end.
Proof.
  intros H. unfold trackerHandler. rewrite H. simpl.
  destruct (a_result event) as [| |b|n|s|items|fields]; simpl; try reflexivity.
  - now destruct b.
  - now destruct (negb (n =? 0)%Z).
  - now destruct (truthy s).
Qed.

End GuardFacts.

(** *** Claims on the guard and the URL tracker *)

(** C5. For a domain [d] of the configured set, a URL whose parsed hostname
    is [d], [www.d] or any [sub.d] is classified sensitive; the hostname
    [not ++ d] is not sensitive on account of [d]; a parsed URL is sensitive
    exactly when its lower-cased hostname has one of the three shapes for
    some configured domain; and a URL the parser rejects is sensitive exactly
    when its lower-cased text contains a lower-cased configured domain.
    [isSensitiveDomain] is a total function: it answers on every input. *)
Theorem isSensitiveDomain_classifies
    (url_hostname : url_parser) (domains : list string) (d : string) :
  In d domains ->
  (forall url h, url_hostname url = Some h ->
     h = d \/ h = "www." ++ d \/ (exists sub, h = sub ++ "." ++ d) ->
     isSensitiveDomain url_hostname url domains = true)
  /\ (forall url, url_hostname url = Some ("not" ++ d) ->
        isSensitiveDomain url_hostname url [d] = false)
  /\ (forall url h, url_hostname url = Some h ->
        (isSensitiveDomain url_hostname url domains = true <->
         exists d', In d' domains /\
           (toLowerCase h = toLowerCase d'
            \/ toLowerCase h = "www." ++ toLowerCase d'
            \/ exists sub, toLowerCase h = sub ++ "." ++ toLowerCase d')))
  /\ (forall url, url_hostname url = None ->
        (isSensitiveDomain url_hostname url domains = true <->
         exists d' a b, In d' domains /\ toLowerCase url = a ++ toLowerCase d' ++ b)).
Proof.
  intros Hd. split; [|split; [|split]].
  - intros url h Hh Hshape.
    apply (isSensitiveDomain_parsed _ _ _ _ Hh). exists d. split; [exact Hd|].
    apply host_matches_spec.
    destruct Hshape as [-> | [-> | [sub ->]]].
    + now left.
    + right; left. now rewrite toLowerCase_app.
    + right; right. exists (toLowerCase sub).
      now rewrite !toLowerCase_app.
  - intros url Hh. unfold isSensitiveDomain. rewrite Hh. cbn [existsb].
    now rewrite host_matches_glued.
  - intros url h Hh. rewrite (isSensitiveDomain_parsed _ _ _ _ Hh).
    split; intros [d' [Hin Hm]]; exists d'; (split; [exact Hin|]);
      now apply host_matches_spec.
  - intros url Hh. rewrite (isSensitiveDomain_malformed _ _ _ Hh). split.
    + intros [d' [Hin Hm]]. apply includes_spec in Hm as [a [b Hab]]. now exists d', a, b.
    + intros [d' [a [b [Hin Hab]]]]. exists d'. split; [exact Hin|].
      apply includes_spec. now exists a, b.
Qed.

Lemma isSensitiveDomain_classifies_witness :
  isSensitiveDomain SimpleUrl.hostname "https://pay.shop.test/cart" ["amazon.com"; "shop.test"] = true
  /\ isSensitiveDomain SimpleUrl.hostname "shop.test checkout" ["amazon.com"; "shop.test"] = true.
Proof.
  assert (Hin : In "shop.test" ["amazon.com"; "shop.test"]) by (right; left; reflexivity).
  destruct (isSensitiveDomain_classifies SimpleUrl.hostname _ _ Hin) as [H1 [_ [_ H4]]].
  split.
  - apply (H1 _ "pay.shop.test"); [reflexivity|].
    right; right. now exists "pay".
  - apply H4; [reflexivity|].
    exists "shop.test", "", " checkout". split; [exact Hin | reflexivity].
Defined.

(** C1 fails when the tracked URL is the empty string and the empty string
    is a configured domain: the action is an [act] on a sensitive URL with a
    purchase keyword, and the guard lets it pass. *)
Lemma guard_passes_on_empty_url :
  let event := {| toolName := "browser";
                  params := JObj [("action", JStr "act");
                                  ("request", JObj [("kind", JStr "click");
                                                    ("text", JStr "checkout")])] |} in
  effective_url (Some (Some "")) None = Some ""
  /\ action_of (params event) = "act"
  /\ isSensitiveDomain SimpleUrl.hostname "" [""] = true
  /\ test PURCHASE_KEYWORDS (extractActText (params event)) = true
  /\ fst (guardHandler SimpleUrl.hostname [""] (Some (Some "")) event None) = Pass.
Proof. vm_compute. repeat split. Qed.

(** C1 (amended). For a call of the browser tool while the tracked current
    URL is a non-empty string, the guard refuses exactly when the action is
    [act], the URL is on a sensitive domain and the extracted text matches a
    purchase keyword; in every other case, so for [navigate] and the
    read-only actions, it passes. *)
Theorem guard_blocks_iff
    (url_hostname : url_parser) (sensitiveDomains : list string)
    (getter : option (option string)) (event : BeforeToolCallEvent)
    (last : option string) (u : string) :
  toolName event = "browser" ->
  effective_url getter last = Some u ->
  u <> "" ->
  (fst (guardHandler url_hostname sensitiveDomains getter event last) = Block blockReason
   <-> action_of (params event) = "act"
       /\ isSensitiveDomain url_hostname u sensitiveDomains = true
       /\ test PURCHASE_KEYWORDS (extractActText (params event)) = true)
  /\ (fst (guardHandler url_hostname sensitiveDomains getter event last) = Pass
      <-> ~ (action_of (params event) = "act"
             /\ isSensitiveDomain url_hostname u sensitiveDomains = true
             /\ test PURCHASE_KEYWORDS (extractActText (params event)) = true)).
Proof.
  intros Htool Hurl Hu. apply truthy_true in Hu.
  destruct (string_dec (action_of (params event)) "act") as [Hact | Hact].
  - rewrite (guardHandler_act _ _ _ _ _ _ Htool Hact Hurl), Hu. simpl.
    destruct (isSensitiveDomain url_hostname u sensitiveDomains);
      destruct (test PURCHASE_KEYWORDS (extractActText (params event))); simpl;
      intuition (discriminate || congruence).
  - rewrite (guardHandler_not_act _ _ _ _ _ Hact).
    intuition (discriminate || congruence).
Qed.

Lemma guard_blocks_iff_witness :
  fst (guardHandler SimpleUrl.hostname ["shop.test"] (Some (Some "https://shop.test/checkout"))
         {| toolName := "browser";
            params := JObj [("action", JStr "act");
                            ("request", JObj [("kind", JStr "click");
                                              ("text", JStr "Place your order")])] |}
         None) = Block blockReason.
Proof.
  apply (guard_blocks_iff SimpleUrl.hostname ["shop.test"] _ _ None
           "https://shop.test/checkout"); [reflexivity | reflexivity | discriminate |].
  repeat split.
Defined.

(** C10. With no URL known (the getter is missing or yields null, and the
    handler has recorded no navigation) every [act] call passes, and
    [lastKnownUrl] stays null, whatever the text and the configured
    domains. *)
Theorem guard_fails_open_without_url
    (url_hostname : url_parser) (sensitiveDomains : list string)
    (getter : option (option string)) (event : BeforeToolCallEvent) :
  getter = None \/ getter = Some None ->
  action_of (params event) = "act" ->
  guardHandler url_hostname sensitiveDomains getter event None = (Pass, None).
Proof.
  intros Hg Hact. unfold guardHandler. rewrite Hact. simpl.
  destruct (negb (String.eqb (toolName event) "browser")); [reflexivity|].
  destruct (as_string (get_prop (params event) "targetUrl"));
    destruct Hg as [-> | ->]; reflexivity.
Qed.

Lemma guard_fails_open_without_url_witness :
  test PURCHASE_KEYWORDS "Buy now" = true
  /\ guardHandler SimpleUrl.hostname ["amazon.com"] (Some None)
       {| toolName := "browser";
          params := JObj [("action", JStr "act");
                          ("request", JObj [("kind", JStr "click");
                                            ("text", JStr "Buy now")])] |}
       None = (Pass, None).
Proof.
  split; [reflexivity|].
  apply guard_fails_open_without_url; [right; reflexivity | reflexivity].
Defined.

(** C9 fails for a tool other than the browser: its result carries a string
    [url], and the cell keeps its old value. *)
Lemma tracker_ignores_other_tools :
  let event := {| a_toolName := "web_fetch";
                  a_params := JObj [("url", JStr "https://shop.test/")];
                  a_result := JObj [("url", JStr "https://shop.test/checkout")] |} in
  as_string (get_prop (a_result event) "url") = Some "https://shop.test/checkout"
  /\ trackerHandler event None = None.
Proof. split; reflexivity. Qed.

(** C9 (amended). The tracker's cell changes only on events of the browser
    tool: a result that carries a string [url] sets the cell to it; failing
    that, a [navigate] action with a string [targetUrl] sets the cell to the
    target; every other event, and every event of another tool, leaves the
    cell as it was. *)
Theorem tracker_updates
    (event : AfterToolCallEvent) (currentUrl : option string) :
  (forall u, a_toolName event = "browser" ->
     as_string (get_prop (a_result event) "url") = Some u ->
     trackerHandler event currentUrl = Some u)
  /\ (forall t, a_toolName event = "browser" ->
        action_of (a_params event) = "navigate" ->
        as_string (get_prop (a_params event) "targetUrl") = Some t ->
        as_string (get_prop (a_result event) "url") = None ->
        trackerHandler event currentUrl = Some t)
  /\ (a_toolName event <> "browser" -> trackerHandler event currentUrl = currentUrl)
  /\ (trackerHandler event currentUrl <> currentUrl ->
        a_toolName event = "browser"
        /\ (as_string (get_prop (a_result event) "url") = trackerHandler event currentUrl
            \/ (action_of (a_params event) = "navigate"
                /\ as_string (get_prop (a_params event) "targetUrl")
                   = trackerHandler event currentUrl))).
Proof.
  destruct (string_dec (a_toolName event) "browser") as [Htool | Htool].
  - rewrite (trackerHandler_browser _ _ Htool).
    destruct (as_string (get_prop (a_result event) "url")) as [u|] eqn:Eu.
    + split; [congruence | split; [congruence | split; [congruence |]]].
      intros _. split; [exact Htool | now left].
    + destruct (String.eqb (action_of (a_params event)) "navigate") eqn:En.
      * apply String.eqb_eq in En.
        destruct (as_string (get_prop (a_params event) "targetUrl")) as [t|] eqn:Et;
          (split; [congruence | split; [congruence | split; [congruence |]]]).
        -- intros _. split; [exact Htool | right; now split].
        -- intros Hne. now contradiction Hne.
      * split; [congruence | split; [| split; [congruence |]]].
        -- intros t _ Hnav. rewrite Hnav in En. discriminate.
        -- intros Hne. now contradiction Hne.
  - rewrite (trackerHandler_other _ _ Htool).
    split; [congruence | split; [congruence | split; [congruence |]]].
    intros Hne. now contradiction Hne.
Qed.

Lemma tracker_updates_witness :
  trackerHandler
    {| a_toolName := "browser";
       a_params := JObj [("action", JStr "navigate"); ("targetUrl", JStr "http://shop.test")];
       a_result := JObj [("ok", JBool true); ("url", JStr "https://shop.test/home")] |}
    None = Some "https://shop.test/home".
Proof.
  refine (proj1 (tracker_updates _ _) _ _ _); reflexivity.
Defined.

(** *** The approval ledger *)

Section LedgerFacts.

Import Ledger.

Lemma resolveApproval_absent (st : state) (approvalId : string) (approved : bool) :
  pendingApprovals st !! approvalId = None ->
  resolveApproval approvalId approved st = (false, st).
Proof. intros H. unfold resolveApproval. now rewrite H. Qed.

Lemma resolveApproval_live (st : state) (approvalId : string) (approved : bool)
    (entry : PendingApproval) :
  pendingApprovals st !! approvalId = Some entry ->
  resolveApproval approvalId approved st =
  (true, callResolve (pa_resolve entry) approved
           (deletePending approvalId (clearTimeout (pa_timeout entry) st))).
Proof. intros H. unfold resolveApproval. now rewrite H. Qed.

(** Only [waitForApproval] on the same id brings an absent id back. *)
Lemma absent_step (o : op) (st : state) (approvalId : string) :
  (forall timeoutMs, o <> Create approvalId timeoutMs) ->
  pendingApprovals st !! approvalId = None ->
  pendingApprovals (step o st) !! approvalId = None.
Proof.
  intros Hne Habs. destruct o as [id' ms | id' b | h]; simpl.
  - rewrite lookup_insert_ne; [exact Habs|]. intros ->. now apply (Hne ms).
  - unfold resolveApproval. destruct (pendingApprovals st !! id') eqn:E; simpl; [|exact Habs].
    destruct (decide (id' = approvalId)) as [->|Hd].
    + apply lookup_delete_eq.
    + now rewrite lookup_delete_ne.
  - unfold timerFires. destruct (timers st !! h) as [cb|]; simpl; [|exact Habs].
    destruct (decide (tc_approvalId cb = approvalId)) as [->|Hd].
    + apply lookup_delete_eq.
    + now rewrite lookup_delete_ne.
Qed.

Lemma absent_run (os : list op) (st : state) (approvalId : string) :
  (forall timeoutMs, Create approvalId timeoutMs ∉ os) ->
  pendingApprovals st !! approvalId = None ->
  pendingApprovals (run os st) !! approvalId = None.
Proof.
  revert st. induction os as [|o os IH]; intros st Hne Habs; simpl; [exact Habs|].
  apply IH.
  - intros ms Hin. apply (Hne ms). now right.
  - apply absent_step; [|exact Habs].
    intros ms ->. apply (Hne ms). now left.
Qed.

Lemma run_app (os1 os2 : list op) (st : state) :
  run (os1 ++ os2)%list st = run os2 (run os1 st).
Proof. unfold run. apply fold_left_app. Qed.

(** Calls are only ever appended. *)
Lemma calls_step (o : op) (st : state) :
  exists new, calls (step o st) = (calls st ++ new)%list.
Proof.
  destruct o as [id ms | id b | h]; simpl.
  - exists []. now rewrite app_nil_r.
  - unfold resolveApproval. destruct (pendingApprovals st !! id); simpl.
    + now eexists.
    + exists []. now rewrite app_nil_r.
  - unfold timerFires. destruct (timers st !! h); simpl.
    + now eexists.
    + exists []. now rewrite app_nil_r.
Qed.

Lemma calls_run (os : list op) (st : state) :
  exists new, calls (run os st) = (calls st ++ new)%list.
Proof.
  revert st. induction os as [|o os IH]; intros st; simpl.
  - exists []. now rewrite app_nil_r.
  - destruct (IH (step o st)) as [n2 H2]. destruct (calls_step o st) as [n1 H1].
    exists (n1 ++ n2)%list. now rewrite H2, H1, app_assoc.
Qed.

Lemma invariant_initial : invariant initial.
Proof.
  split; simpl.
  - intros id e H. now rewrite lookup_empty in H.
  - intros h cb H. now rewrite lookup_empty in H.
  - intros h h' cb cb' H. now rewrite lookup_empty in H.
  - constructor.
  - intros r H. now apply not_elem_of_nil in H.
Qed.

Lemma invariant_create (st : state) (approvalId : string) (timeoutMs : Z) :
  invariant st -> invariant (snd (waitForApproval approvalId timeoutMs st)).
Proof.
  intros [He Ht Ho Hn Hc]. split; simpl.
  - intros id' e H. apply lookup_insert_Some in H as [[<- <-] | [Hne H]]; simpl.
    + eexists. rewrite lookup_insert_eq. now repeat split.
    + destruct (He _ _ H) as [cb [Hcb [Hid Hr]]]. exists cb.
      destruct (Ht _ _ Hcb) as [_ [Hlt _]].
      rewrite lookup_insert_ne by lia. now repeat split.
  - intros h cb H. apply lookup_insert_Some in H as [[<- <-] | [Hne H]]; simpl.
    + split; [|lia]. intros Hin. apply Hc in Hin. lia.
    + destruct (Ht _ _ H) as [Hnot [Hlt Hr]]. split; [exact Hnot | lia].
  - intros h h' cb cb' H H'.
    apply lookup_insert_Some in H as [[<- <-] | [Hne H]];
      apply lookup_insert_Some in H' as [[<- <-] | [Hne' H']]; simpl; intros Heq.
    + reflexivity.
    + destruct (Ht _ _ H') as [_ [_ Hr]]. lia.
    + destruct (Ht _ _ H) as [_ [_ Hr]]. lia.
    + now apply (Ho _ _ _ _ H H').
  - exact Hn.
  - intros r Hin. apply Hc in Hin. lia.
Qed.

(** Both [resolveApproval] and the timer callback retire an armed timer:
    disarm it, delete the entry of its id, call its [resolve]. *)
Lemma invariant_retire (st : state) (h : nat) (cb : TimerCallback) (approved : bool) :
  invariant st ->
  timers st !! h = Some cb ->
  invariant (callResolve (tc_resolve cb) approved
               (deletePending (tc_approvalId cb) (clearTimeout h st))).
Proof.
  intros [He Ht Ho Hn Hc] Hcb. split; simpl.
  - intros id' e H. apply lookup_delete_Some in H as [Hne H].
    destruct (He _ _ H) as [cb' [Hcb' [Hid Hr]]]. exists cb'.
    rewrite lookup_delete_ne; [now repeat split|].
    intros Heq. rewrite <- Heq, Hcb in Hcb'. injection Hcb' as <-. contradiction.
  - intros h' cb' H. apply lookup_delete_Some in H as [Hne H].
    destruct (Ht _ _ H) as [Hnot [Hlt Hr]]. split; [|lia].
    rewrite fmap_app, elem_of_app. intros [Hin | Hin]; [contradiction|].
    apply list_elem_of_singleton in Hin. simpl in Hin.
    apply Hne. now apply (Ho _ _ _ _ Hcb H).
  - intros h1 h2 cb1 cb2 H1 H2.
    apply lookup_delete_Some in H1 as [_ H1]. apply lookup_delete_Some in H2 as [_ H2].
    now apply (Ho _ _ _ _ H1 H2).
  - rewrite fmap_app. apply NoDup_app. split; [exact Hn|]. split.
    + intros r Hin Hin'. apply list_elem_of_singleton in Hin'. simpl in Hin'. subst r.
      now destruct (Ht _ _ Hcb) as [Hnot _].
    + apply NoDup_singleton.
  - intros r. rewrite fmap_app, elem_of_app. intros [Hin | Hin]; [now apply Hc|].
    apply list_elem_of_singleton in Hin. simpl in Hin. subst r.
    now destruct (Ht _ _ Hcb) as [_ [_ Hr]].
Qed.

Lemma invariant_step (o : op) (st : state) : invariant st -> invariant (step o st).
Proof.
  intros Hinv. destruct o as [id ms | id b | h]; simpl.
  - now apply invariant_create.
  - unfold resolveApproval. destruct (pendingApprovals st !! id) as [e|] eqn:E; [|exact Hinv].
    destruct (inv_entry _ Hinv _ _ E) as [cb [Hcb [<- <-]]]. simpl.
    now apply invariant_retire.
  - unfold timerFires. destruct (timers st !! h) as [cb|] eqn:E; [|exact Hinv].
    now apply invariant_retire.
Qed.

Lemma invariant_run (os : list op) (st : state) : invariant st -> invariant (run os st).
Proof.
  revert st. induction os as [|o os IH]; intros st Hinv; simpl; [exact Hinv|].
  apply IH. now apply invariant_step.
Qed.

Lemma invariant_reachable (st : state) : reachable st -> invariant st.
Proof. intros [os ->]. apply invariant_run, invariant_initial. Qed.

Lemma reachable_run (os : list op) (st : state) : reachable st -> reachable (run os st).
Proof. intros [os0 ->]. exists (os0 ++ os)%list. now rewrite run_app. Qed.

(** A [resolve] that was not called so far settles, when called, to the
    argument of that call, and has then been called once. *)
Lemma settled_first_call (r : nat) (approved : bool) (cs : list (nat * bool)) :
  r ∉ cs.*1 -> settled r (cs ++ [(r, approved)])%list = Some approved.
Proof.
  induction cs as [|[r' b] cs IH]; simpl; intros Hnot.
  - now rewrite Nat.eqb_refl.
  - apply not_elem_of_cons in Hnot as [Hne Hnot].
    destruct (Nat.eqb r' r) eqn:E; [apply Nat.eqb_eq in E; congruence | now apply IH].
Qed.

Lemma times_called_never (r : nat) (cs : list (nat * bool)) :
  r ∉ cs.*1 -> times_called r cs = 0.
Proof.
  unfold times_called. induction cs as [|[r' b] cs IH]; simpl; intros Hnot; [reflexivity|].
  apply not_elem_of_cons in Hnot as [Hne Hnot]. rewrite filter_cons. simpl.
  destruct (decide (r' = r)) as [->|_]; [contradiction | now apply IH].
Qed.

Lemma times_called_unique (r : nat) (cs : list (nat * bool)) :
  NoDup cs.*1 -> r ∈ cs.*1 -> times_called r cs = 1.
Proof.
  induction cs as [|[r' b] cs IH]; simpl; intros Hnd Hin.
  - now apply not_elem_of_nil in Hin.
  - apply NoDup_cons in Hnd as [Hnot Hnd].
    unfold times_called in *. rewrite filter_cons. simpl.
    destruct (decide (r' = r)) as [->|Hne]; simpl.
    + f_equal. now apply times_called_never.
    + apply IH; [exact Hnd|]. apply elem_of_cons in Hin as [->|Hin]; [contradiction | exact Hin].
Qed.

Lemma settled_never (r : nat) (cs : list (nat * bool)) :
  r ∉ cs.*1 -> settled r cs = None.
Proof.
  induction cs as [|[r' b] cs IH]; simpl; intros Hnot; [reflexivity|].
  apply not_elem_of_cons in Hnot as [Hne Hnot].
  destruct (Nat.eqb r' r) eqn:E; [apply Nat.eqb_eq in E; congruence | now apply IH].
Qed.

(** An armed timer stays armed until it fires or its own id is resolved
    from outside. *)
Lemma timer_armed_step (o : op) (st : state) (t : nat) (cb : TimerCallback) :
  invariant st ->
  timers st !! t = Some cb ->
  (forall approved, o <> Resolve (tc_approvalId cb) approved) ->
  o <> Fire t ->
  timers (step o st) !! t = Some cb.
Proof.
  intros Hinv Hcb Hres Hfire. destruct o as [id ms | id b | h]; simpl.
  - destruct (inv_timer _ Hinv _ _ Hcb) as [_ [Hlt _]].
    rewrite lookup_insert_ne by lia. exact Hcb.
  - unfold resolveApproval. destruct (pendingApprovals st !! id) as [e|] eqn:E; [|exact Hcb].
    simpl. destruct (inv_entry _ Hinv _ _ E) as [cb' [Hcb' [Hid _]]].
    rewrite lookup_delete_ne; [exact Hcb|].
    intros Heq. rewrite Heq, Hcb in Hcb'. injection Hcb' as <-.
    apply (Hres b). now rewrite Hid.
  - unfold timerFires. destruct (timers st !! h) as [cb'|] eqn:E; [|exact Hcb].
    simpl. rewrite lookup_delete_ne; [exact Hcb|]. intros ->. now apply Hfire.
Qed.

Lemma timer_armed_run (os : list op) (st : state) (t : nat) (cb : TimerCallback) :
  invariant st ->
  timers st !! t = Some cb ->
  (forall approved, Resolve (tc_approvalId cb) approved ∉ os) ->
  Fire t ∉ os ->
  timers (run os st) !! t = Some cb.
Proof.
  revert st. induction os as [|o os IH]; intros st Hinv Hcb Hres Hfire; simpl; [exact Hcb|].
  apply IH.
  - now apply invariant_step.
  - apply timer_armed_step; try assumption.
    + intros b ->. apply (Hres b). now left.
    + intros ->. apply Hfire. now left.
  - intros b Hin. apply (Hres b). now right.
  - intros Hin. apply Hfire. now right.
Qed.

(** Firing an armed timer in a reachable state. *)
Lemma timerFires_armed (st : state) (h : nat) (cb : TimerCallback) :
  invariant st ->
  timers st !! h = Some cb ->
  pendingApprovals (timerFires h st) !! tc_approvalId cb = None
  /\ timers (timerFires h st) !! h = None
  /\ calls (timerFires h st) = (calls st ++ [(tc_resolve cb, false)])%list
  /\ settled (tc_resolve cb) (calls (timerFires h st)) = Some false.
Proof.
  intros Hinv Hcb. unfold timerFires. rewrite Hcb. simpl.
  rewrite !lookup_delete_eq. repeat split.
  apply settled_first_call. now destruct (inv_timer _ Hinv _ _ Hcb).
Qed.

End LedgerFacts.

(** *** Claims on the approval ledger *)

(** C2. On a live entry [resolveApproval] returns [true], disarms the
    entry's timer, removes the entry and calls the entry's [resolve] once,
    with [approved], which settles the promise to [approved]; afterwards, as
    long as the id is not created again, every [resolveApproval] on it
    returns [false] and changes nothing; and whatever happens later, that
    [resolve] has been called exactly once. *)
Theorem resolveApproval_exactly_once
    (st : Ledger.state) (approvalId : string) (approved : bool)
    (entry : Ledger.PendingApproval) :
  Ledger.reachable st ->
  Ledger.pendingApprovals st !! approvalId = Some entry ->
  fst (Ledger.resolveApproval approvalId approved st) = true
  /\ Ledger.timers (snd (Ledger.resolveApproval approvalId approved st))
       !! Ledger.pa_timeout entry = None
  /\ Ledger.pendingApprovals (snd (Ledger.resolveApproval approvalId approved st))
       !! approvalId = None
  /\ Ledger.calls (snd (Ledger.resolveApproval approvalId approved st))
     = (Ledger.calls st ++ [(Ledger.pa_resolve entry, approved)])%list
  /\ Ledger.settled (Ledger.pa_resolve entry)
       (Ledger.calls (snd (Ledger.resolveApproval approvalId approved st))) = Some approved
  /\ (forall os approved',
        (forall timeoutMs, Ledger.Create approvalId timeoutMs ∉ os) ->
        Ledger.resolveApproval approvalId approved'
          (Ledger.run os (snd (Ledger.resolveApproval approvalId approved st)))
        = (false, Ledger.run os (snd (Ledger.resolveApproval approvalId approved st))))
  /\ (forall os,
        Ledger.times_called (Ledger.pa_resolve entry)
          (Ledger.calls (Ledger.run os (snd (Ledger.resolveApproval approvalId approved st))))
        = 1).
Proof.
  intros Hreach Hlive.
  pose proof (invariant_reachable _ Hreach) as Hinv.
  destruct (Ledger.inv_entry _ Hinv _ _ Hlive) as [cb [Hcb [Hid Hr]]].
  assert (Hstep : Ledger.reachable (snd (Ledger.resolveApproval approvalId approved st))).
  { apply (reachable_run [Ledger.Resolve approvalId approved] _ Hreach). }
  rewrite (resolveApproval_live _ _ _ _ Hlive) in *. simpl.
  rewrite !lookup_delete_eq.
  split; [reflexivity|]. split; [reflexivity|]. split; [reflexivity|].
  split; [reflexivity|]. split; [|split].
  - apply settled_first_call. rewrite <- Hr. now destruct (Ledger.inv_timer _ Hinv _ _ Hcb).
  - intros os approved' Hos. apply resolveApproval_absent, absent_run; [exact Hos|].
    simpl. apply lookup_delete_eq.
  - intros os. apply times_called_unique.
    + apply Ledger.inv_once, invariant_reachable. now apply reachable_run.
    + match goal with |- context [Ledger.run os ?s] =>
        destruct (calls_run os s) as [new Hnew] end.
      rewrite Hnew. simpl. rewrite !fmap_app, !elem_of_app. left; right.
      now apply list_elem_of_singleton.
Qed.

Lemma resolveApproval_exactly_once_witness :
  Ledger.resolveApproval "ab12cd34" true
    (Ledger.run [Ledger.Resolve "ab12cd34" false; Ledger.Fire 0]
       (snd (Ledger.resolveApproval "ab12cd34" true
               (Ledger.run [Ledger.Create "ab12cd34" 5000] Ledger.initial))))
  = (false,
     Ledger.run [Ledger.Resolve "ab12cd34" false; Ledger.Fire 0]
       (snd (Ledger.resolveApproval "ab12cd34" true
               (Ledger.run [Ledger.Create "ab12cd34" 5000] Ledger.initial)))).
Proof.
  assert (Hreach : Ledger.reachable (Ledger.run [Ledger.Create "ab12cd34" 5000] Ledger.initial))
    by (now eexists).
  assert (Hlive : Ledger.pendingApprovals
                    (Ledger.run [Ledger.Create "ab12cd34" 5000] Ledger.initial)
                  !! "ab12cd34"
                  = Some {| Ledger.pa_id := "ab12cd34"; Ledger.pa_resolve := 0;
                            Ledger.pa_timeout := 0 |})
    by (simpl; apply lookup_insert_eq).
  destruct (resolveApproval_exactly_once _ _ true _ Hreach Hlive)
    as [_ [_ [_ [_ [_ [Hlater _]]]]]].
  apply Hlater. intros timeoutMs Hin.
  apply elem_of_cons in Hin as [Hin | Hin]; [discriminate|].
  apply list_elem_of_singleton in Hin. discriminate.
Defined.

(** C3 fails on a collision: [waitForApproval] on an id that is live does
    not fail; it replaces the stored entry by a new one. *)
Lemma waitForApproval_replaces_live_entry :
  let st := snd (Ledger.waitForApproval "ab12cd34" 5000 Ledger.initial) in
  let st' := snd (Ledger.waitForApproval "ab12cd34" 5000 st) in
  Ledger.pendingApprovals st !! "ab12cd34"
    = Some {| Ledger.pa_id := "ab12cd34"; Ledger.pa_resolve := 0; Ledger.pa_timeout := 0 |}
  /\ Ledger.pendingApprovals st' !! "ab12cd34"
    = Some {| Ledger.pa_id := "ab12cd34"; Ledger.pa_resolve := 1; Ledger.pa_timeout := 1 |}.
Proof. split; simpl; apply lookup_insert_eq. Qed.

(** C3 (amended). [waitForApproval] always stores the new entry under its
    id and leaves the other ids alone.  The ledger keeps one entry per id: on
    a fresh id it grows by one, on a live id the new entry takes the place of
    the old one and the size is unchanged; the replaced approval keeps its
    own, different [resolve] and its timer stays armed. *)
Theorem waitForApproval_overwrites
    (st : Ledger.state) (approvalId : string) (timeoutMs : Z) :
  Ledger.pendingApprovals (snd (Ledger.waitForApproval approvalId timeoutMs st)) !! approvalId
  = Some {| Ledger.pa_id := approvalId;
            Ledger.pa_resolve := fst (Ledger.waitForApproval approvalId timeoutMs st);
            Ledger.pa_timeout := Ledger.next_timer st |}
  /\ (forall other, other <> approvalId ->
        Ledger.pendingApprovals (snd (Ledger.waitForApproval approvalId timeoutMs st)) !! other
        = Ledger.pendingApprovals st !! other)
  /\ (Ledger.pendingApprovals st !! approvalId = None ->
        size (Ledger.pendingApprovals (snd (Ledger.waitForApproval approvalId timeoutMs st)))
        = S (size (Ledger.pendingApprovals st)))
  /\ (forall old, Ledger.pendingApprovals st !! approvalId = Some old ->
        size (Ledger.pendingApprovals (snd (Ledger.waitForApproval approvalId timeoutMs st)))
        = size (Ledger.pendingApprovals st))
  /\ (forall old, Ledger.reachable st ->
        Ledger.pendingApprovals st !! approvalId = Some old ->
        Ledger.pa_resolve old <> fst (Ledger.waitForApproval approvalId timeoutMs st)
        /\ is_Some (Ledger.timers (snd (Ledger.waitForApproval approvalId timeoutMs st))
                      !! Ledger.pa_timeout old)).
Proof.
  simpl. split; [apply lookup_insert_eq|]. split; [|split; [|split]].
  - intros other Hne. now rewrite lookup_insert_ne.
  - intros Habs. now apply map_size_insert_None.
  - intros old Hold. now apply map_size_insert_Some.
  - intros old Hreach Hold. pose proof (invariant_reachable _ Hreach) as Hinv.
    destruct (Ledger.inv_entry _ Hinv _ _ Hold) as [cb [Hcb [Hid Hr]]].
    destruct (Ledger.inv_timer _ Hinv _ _ Hcb) as [_ [Hlt Hlr]].
    split; [lia|]. rewrite lookup_insert_ne by lia. now exists cb.
Qed.

Lemma waitForApproval_overwrites_witness :
  size (Ledger.pendingApprovals
          (snd (Ledger.waitForApproval "ab12cd34" 5000
                  (snd (Ledger.waitForApproval "ab12cd34" 5000 Ledger.initial)))))
  = size (Ledger.pendingApprovals (snd (Ledger.waitForApproval "ab12cd34" 5000 Ledger.initial))).
Proof.
  destruct (waitForApproval_overwrites
              (snd (Ledger.waitForApproval "ab12cd34" 5000 Ledger.initial)) "ab12cd34" 5000)
    as [_ [_ [_ [Hsize _]]]].
  apply (Hsize {| Ledger.pa_id := "ab12cd34"; Ledger.pa_resolve := 0; Ledger.pa_timeout := 0 |}).
  simpl. apply lookup_insert_eq.
Defined.

(** C4. An approval created by [waitForApproval] whose id receives no
    [resolveApproval] and whose timer has not fired yet is still waiting with
    its timer armed; when that timer fires, the entry of the id is gone, the
    approval's [resolve] is called with [false] and the promise settles to
    [false], the tool result built from it says [approved: false], and, as
    long as the id is not created again, every later [resolveApproval] on it
    returns [false] and changes nothing. *)
Theorem timeout_resolves_denied
    (st0 : Ledger.state) (approvalId : string) (timeoutMs : Z) (os : list Ledger.op) :
  Ledger.reachable st0 ->
  (forall approved, Ledger.Resolve approvalId approved ∉ os) ->
  Ledger.Fire (Ledger.next_timer st0) ∉ os ->
  let r := fst (Ledger.waitForApproval approvalId timeoutMs st0) in
  let t := Ledger.next_timer st0 in
  let st := Ledger.run os (snd (Ledger.waitForApproval approvalId timeoutMs st0)) in
  Ledger.timers st !! t
    = Some {| Ledger.tc_approvalId := approvalId; Ledger.tc_resolve := r;
              Ledger.tc_timeoutMs := timeoutMs |}
  /\ Ledger.settled r (Ledger.calls st) = None
  /\ Ledger.pendingApprovals (Ledger.timerFires t st) !! approvalId = None
  /\ Ledger.timers (Ledger.timerFires t st) !! t = None
  /\ Ledger.calls (Ledger.timerFires t st) = (Ledger.calls st ++ [(r, false)])%list
  /\ Ledger.settled r (Ledger.calls (Ledger.timerFires t st)) = Some false
  /\ (forall n approved,
        Ledger.settled r (Ledger.calls (Ledger.timerFires t st)) = Some approved ->
        get_prop (Ledger.finishConfirm approved approvalId n) "approved" = JBool false)
  /\ (forall os' approved,
        (forall ms, Ledger.Create approvalId ms ∉ os') ->
        Ledger.resolveApproval approvalId approved (Ledger.run os' (Ledger.timerFires t st))
        = (false, Ledger.run os' (Ledger.timerFires t st))).
Proof.
  intros Hreach Hres Hfire r t st.
  assert (Hinv1 : Ledger.invariant (snd (Ledger.waitForApproval approvalId timeoutMs st0))).
  { apply invariant_create, invariant_reachable, Hreach. }
  assert (Harmed : Ledger.timers st !! t
                   = Some {| Ledger.tc_approvalId := approvalId; Ledger.tc_resolve := r;
                             Ledger.tc_timeoutMs := timeoutMs |}).
  { apply timer_armed_run; try assumption. simpl. apply lookup_insert_eq. }
  assert (Hinv : Ledger.invariant st) by now apply invariant_run.
  destruct (timerFires_armed _ _ _ Hinv Harmed) as [Hgone [Hoff [Hcalls Hsettled]]].
  simpl in Hgone, Hcalls, Hsettled.
  split; [exact Harmed|]. split.
  { apply settled_never. now destruct (Ledger.inv_timer _ Hinv _ _ Harmed). }
  split; [exact Hgone|]. split; [exact Hoff|]. split; [exact Hcalls|].
  split; [exact Hsettled|]. split.
  - intros n approved Hs. rewrite Hsettled in Hs. injection Hs as <-. now destruct n.
  - intros os' approved Hos'. now apply resolveApproval_absent, absent_run.
Qed.

Lemma timeout_resolves_denied_witness :
  Ledger.settled 0
    (Ledger.calls (Ledger.timerFires 0
       (Ledger.run [Ledger.Create "ef56ab78" 5000; Ledger.Resolve "ef56ab78" true]
          (snd (Ledger.waitForApproval "ab12cd34" 5000 Ledger.initial)))))
  = Some false.
Proof.
  refine (proj1 (proj2 (proj2 (proj2 (proj2 (proj2
            (timeout_resolves_denied Ledger.initial "ab12cd34" 5000
               [Ledger.Create "ef56ab78" 5000; Ledger.Resolve "ef56ab78" true] _ _ _))))))).
  - now exists [].
  - intros approved Hin. apply elem_of_cons in Hin as [Hin | Hin]; [discriminate|].
    apply list_elem_of_singleton in Hin. discriminate.
  - intros Hin. apply elem_of_cons in Hin as [Hin | Hin]; [discriminate|].
    apply list_elem_of_singleton in Hin. discriminate.
Defined.

(** *** The credential bridge *)

Section VaultFacts.

Import Vault.

Lemma run_trace {A : Type} (e : env) (p : io A) (h : list event) :
  snd (run e p h) = (h ++ trace e p h)%list.
Proof.
  revert h. induction p as [a | msg | X c k IH]; intros h; simpl.
  - now rewrite app_nil_r.
  - now rewrite app_nil_r.
  - rewrite IH, <- app_assoc. reflexivity.
Qed.

Lemma run_bind {A B : Type} (e : env) (p : io A) (f : A -> io B) (h : list event) :
  run e (bind p f) h =
  match fst (run e p h) with
  | Returned a => run e (f a) (snd (run e p h))
  | Thrown msg => (Thrown msg, snd (run e p h))
  end.
Proof.
  revert h. induction p as [a | msg | X c k IH]; intros h; simpl; [reflexivity .. |].
  apply IH.
Qed.

Lemma run_try_catch {A : Type} (e : env) (p : io A) (handler : string -> io A)
    (h : list event) :
  run e (try_catch p handler) h =
  match fst (run e p h) with
  | Returned a => (Returned a, snd (run e p h))
  | Thrown msg => run e (handler msg) (snd (run e p h))
  end.
Proof.
  revert h. induction p as [a | msg | X c k IH]; intros h; simpl; [reflexivity .. |].
  apply IH.
Qed.

Lemma run_await {A : Type} (e : env) (c : call (outcome A)) (h : list event) :
  run e (await c) h = (e h _ c, (h ++ [Ev c (e h _ c)])%list).
Proof. unfold await. simpl. now destruct (e h _ c). Qed.

Lemma trace_bind {A B : Type} (e : env) (p : io A) (f : A -> io B) (h : list event) :
  trace e (bind p f) h =
  (trace e p h ++
   match fst (run e p h) with
   | Returned a => trace e (f a) (h ++ trace e p h)
   | Thrown _ => []
   end)%list.
Proof.
  revert h. induction p as [a | msg | X c k IH]; intros h; simpl.
  - now rewrite app_nil_r.
  - reflexivity.
  - rewrite IH, <- app_assoc. reflexivity.
Qed.

Lemma trace_try_catch {A : Type} (e : env) (p : io A) (handler : string -> io A)
    (h : list event) :
  trace e (try_catch p handler) h =
  (trace e p h ++
   match fst (run e p h) with
   | Returned _ => []
   | Thrown msg => trace e (handler msg) (h ++ trace e p h)
   end)%list.
Proof.
  revert h. induction p as [a | msg | X c k IH]; intros h; simpl.
  - reflexivity.
  - now rewrite app_nil_r.
  - rewrite IH, <- app_assoc. reflexivity.
Qed.

(** **** Calls a body never makes *)

Lemma all_calls_bind (P : forall X : Type, call X -> Prop) {A B : Type}
    (p : io A) (f : A -> io B) :
  all_calls P p -> (forall a, all_calls P (f a)) -> all_calls P (bind p f).
Proof.
  intros Hp Hf. induction Hp as [a | msg | X c k Hc Hk IH]; simpl.
  - apply Hf.
  - constructor.
  - constructor; [exact Hc | exact IH].
Qed.

Lemma all_calls_try_catch (P : forall X : Type, call X -> Prop) {A : Type}
    (p : io A) (handler : string -> io A) :
  all_calls P p -> (forall msg, all_calls P (handler msg)) ->
  all_calls P (try_catch p handler).
Proof.
  intros Hp Hf. induction Hp as [a | msg | X c k Hc Hk IH]; simpl.
  - constructor.
  - apply Hf.
  - constructor; [exact Hc | exact IH].
Qed.

Lemma all_calls_await (P : forall X : Type, call X -> Prop) {A : Type}
    (c : call (outcome A)) :
  P _ c -> all_calls P (await c).
Proof. intros Hc. constructor; [exact Hc|]. intros [a|msg]; constructor. Qed.

Lemma all_calls_trace (P : forall X : Type, call X -> Prop) {A : Type}
    (e : env) (p : io A) (h : list event) :
  all_calls P p ->
  Forall (fun ev => match ev with Ev c _ => P _ c end) (trace e p h).
Proof.
  intros Hp. revert h. induction Hp as [a | msg | X c k Hc Hk IH]; intros h; simpl.
  - constructor.
  - constructor.
  - constructor; [exact Hc | apply IH].
Qed.

(** **** Bodies that stop at the first failed action *)

Lemma fail_fast_bind {A B : Type} (p : io A) (f : A -> io B) :
  fail_fast p -> (forall a, fail_fast (f a)) -> fail_fast (bind p f).
Proof.
  intros Hp Hf. induction Hp as [a | msg | baseUrl req profile k Hthrow Hk IH
                               | X c k Hc Hk IH]; simpl.
  - apply Hf.
  - constructor.
  - apply ff_act.
    + intros msg. now rewrite Hthrow.
    + exact IH.
  - apply ff_other; [exact Hc | exact IH].
Qed.

Lemma fail_fast_await_act (baseUrl : option string) (req : BrowserActRequest)
    (profile : option string) :
  fail_fast (await (BrowserAct baseUrl req profile)).
Proof. apply ff_act; [reflexivity | constructor]. Qed.

Lemma fail_fast_await {A : Type} (c : call (outcome A)) :
  is_act c = false -> fail_fast (await c).
Proof. intros Hc. apply ff_other; [exact Hc|]. intros [a|msg]; constructor. Qed.

(** The error of a failed action is the outcome, and the failed action is
    the last event. *)
Lemma fail_fast_trace {A : Type} (e : env) (p : io A) (h : list event)
    (pre post : list event) (ev : event) (msg : string) :
  fail_fast p ->
  trace e p h = (pre ++ ev :: post)%list ->
  failed_act ev = Some msg ->
  post = [] /\ fst (run e p h) = Thrown msg.
Proof.
  intros Hp. revert h pre.
  induction Hp as [a | m | baseUrl req profile k Hthrow Hk IH | X c k Hc Hk IH];
    intros h pre Htr Hfail; simpl in Htr.
  - now destruct pre.
  - now destruct pre.
  - destruct (e h _ (BrowserAct baseUrl req profile)) as [[]|m] eqn:Ex.
    + destruct pre as [|ev0 pre]; simpl in Htr; injection Htr as Hev Htr.
      * subst ev. discriminate.
      * simpl. rewrite Ex. now apply (IH _ pre).
    + simpl. rewrite Ex, Hthrow in *. simpl in *.
      destruct pre as [|ev0 [|ev1 pre]]; simpl in Htr; try discriminate.
      injection Htr as <- <-. simpl in Hfail. injection Hfail as ->. now split.
  - destruct pre as [|ev0 pre]; simpl in Htr; injection Htr as Hev Htr.
    + subst ev. simpl in Hfail. destruct c; simpl in Hc; discriminate.
    + simpl. now apply (IH _ _ pre).
Qed.

(** **** Runs that differ only in the secrets *)

Section SimFacts.

Variable vis : string -> string -> bool.

Lemma sim_bind {A B : Type} (R : A -> A -> Prop) (S : B -> B -> Prop)
    (p1 p2 : io A) (f1 f2 : A -> io B) :
  sim vis R p1 p2 ->
  (forall a1 a2, R a1 a2 -> sim vis S (f1 a1) (f2 a2)) ->
  sim vis S (bind p1 f1) (bind p2 f2).
Proof.
  intros Hp Hf. induction Hp as [a1 a2 Ha | msg | X1 X2 c1 c2 k1 k2 Hc Hk IH]; simpl.
  - now apply Hf.
  - constructor.
  - constructor; [exact Hc | exact IH].
Qed.

Lemma sim_try_catch {A : Type} (R : A -> A -> Prop)
    (p1 p2 : io A) (handler1 handler2 : string -> io A) :
  sim vis R p1 p2 ->
  (forall msg, sim vis R (handler1 msg) (handler2 msg)) ->
  sim vis R (try_catch p1 handler1) (try_catch p2 handler2).
Proof.
  intros Hp Hf. induction Hp as [a1 a2 Ha | msg | X1 X2 c1 c2 k1 k2 Hc Hk IH]; simpl.
  - now constructor.
  - apply Hf.
  - constructor; [exact Hc | exact IH].
Qed.

(** A secret read twice at the same path: the values agree on what [vis]
    shows. *)
Lemma sim_resolve (path : string) :
  sim vis (fun v1 v2 => vis path v1 = vis path v2)
    (await (SecretsResolve path)) (await (SecretsResolve path)).
Proof.
  constructor; [reflexivity|]. intros [v1|m1] [v2|m2] Hv; simpl in Hv; try discriminate.
  - constructor. congruence.
  - injection Hv as ->. constructor.
Qed.

Lemma sim_getClient : sim vis eq (await GetClient) (await GetClient).
Proof.
  constructor; [reflexivity|]. intros r1 r2 Hr. injection Hr as ->.
  destruct r2; now constructor.
Qed.

Lemma sim_snapshot (baseUrl : option string) (fmt : string) (profile : option string) :
  sim vis eq (await (BrowserSnapshot baseUrl fmt profile))
    (await (BrowserSnapshot baseUrl fmt profile)).
Proof.
  constructor; [reflexivity|]. intros r1 r2 Hr. injection Hr as ->.
  destruct r2; now constructor.
Qed.

(** Typing two different values into the same element. *)
Lemma sim_act (baseUrl : option string) (kind ref : string) (submit : bool)
    (profile : option string) (v1 v2 : string) :
  sim vis eq
    (await (BrowserAct baseUrl
              {| kind := kind; act_ref := ref; text := v1; submit := submit |} profile))
    (await (BrowserAct baseUrl
              {| kind := kind; act_ref := ref; text := v2; submit := submit |} profile)).
Proof.
  constructor; [reflexivity|]. intros r1 r2 Hr. injection Hr as ->.
  destruct r2; now constructor.
Qed.

Lemma sim_log (msg : string) : sim vis eq (perform (LoggerInfo msg)) (perform (LoggerInfo msg)).
Proof. constructor; [reflexivity|]. intros [] [] _. now constructor. Qed.

Lemma sim_sound {A : Type} (R : A -> A -> Prop) (e1 e2 : env) (p1 p2 : io A)
    (h1 h2 : list event) :
  sim vis R p1 p2 ->
  env_equiv vis e1 e2 ->
  map (view vis) h1 = map (view vis) h2 ->
  outcome_rel R (fst (run e1 p1 h1)) (fst (run e2 p2 h2))
  /\ map (view vis) (trace e1 p1 h1) = map (view vis) (trace e2 p2 h2).
Proof.
  intros Hp He. revert h1 h2.
  induction Hp as [a1 a2 Ha | msg | X1 X2 c1 c2 k1 k2 Hc Hk IH]; intros h1 h2 Hh; simpl.
  - now split.
  - now split.
  - pose proof (He h1 h2 _ _ c1 c2 Hh Hc) as Hx.
    destruct (IH _ _ Hx (h1 ++ [Ev c1 (e1 h1 X1 c1)])%list (h2 ++ [Ev c2 (e2 h2 X2 c2)])%list)
      as [Ho Ht].
    + rewrite !map_app. simpl. now rewrite Hh, Hc, Hx.
    + split; [exact Ho|]. now rewrite Hc, Hx, Ht.
Qed.

Lemma outcome_rel_eq {A : Type} (o1 o2 : outcome A) : outcome_rel eq o1 o2 -> o1 = o2.
Proof. destruct o1, o2; simpl; intros H; now subst. Qed.

Lemma sim_vaultResolve (itemRef : string) (vaultPrefix : option string) (logger : bool) :
  sim vis (creds_rel vis (basePathOf itemRef vaultPrefix ++ "/one-time password"))
    (vaultResolve itemRef vaultPrefix logger) (vaultResolve itemRef vaultPrefix logger).
Proof.
  unfold vaultResolve.
  eapply sim_bind; [apply sim_getClient|]. intros _ _ _.
  eapply (sim_bind eq).
  { destruct logger; [apply sim_log | now constructor]. }
  intros _ _ _.
  eapply sim_bind; [apply sim_resolve|]. intros u1 u2 _.
  eapply sim_bind; [apply sim_resolve|]. intros p1 p2 _.
  eapply (sim_bind (fun t1 t2 => match t1, t2 with
                                 | Some v1, Some v2 =>
                                     vis (basePathOf itemRef vaultPrefix ++ "/one-time password") v1
                                     = vis (basePathOf itemRef vaultPrefix ++ "/one-time password") v2
                                 | None, None => True
                                 | _, _ => False
                                 end)).
  - apply sim_try_catch.
    + eapply sim_bind; [apply sim_resolve|]. intros v1 v2 Hv. now constructor.
    + intros msg. now constructor.
  - intros t1 t2 Ht. now constructor.
Qed.

Lemma sim_fillField (baseUrl profile : option string) (ref v1 v2 : string) :
  sim vis eq (fillField baseUrl profile ref v1) (fillField baseUrl profile ref v2).
Proof. apply sim_act. Qed.

Lemma sim_vaultInject (itemRef : string) (fieldMap : option (gmap string string))
    (baseUrl profile vaultPrefix : option string) (logger : bool) :
  sim vis eq
    (vaultInject itemRef fieldMap baseUrl profile vaultPrefix logger)
    (vaultInject itemRef fieldMap baseUrl profile vaultPrefix logger).
Proof.
  unfold vaultInject.
  eapply sim_bind; [apply sim_vaultResolve|]. intros c1 c2 _.
  eapply (sim_bind eq); [| intros _ _ _; now constructor].
  destruct (truthy_ref (fieldMap ≫= (fun m => m !! "username"))) as [uref|];
    [destruct (truthy_ref (fieldMap ≫= (fun m => m !! "password"))) as [pref|]|].
  - eapply (sim_bind eq); [apply sim_fillField|]. intros _ _ _. apply sim_fillField.
  - eapply sim_bind; [apply sim_snapshot|]. intros snap _ <-.
    destruct (negb (ok snap)); [constructor|].
    destruct (find (is_textbox USERNAME_PATTERN) (aria_nodes snap)); [|constructor].
    destruct (find (is_textbox PASSWORD_PATTERN) (aria_nodes snap)); [|constructor].
    eapply (sim_bind eq); [apply sim_fillField|]. intros _ _ _. apply sim_fillField.
  - eapply sim_bind; [apply sim_snapshot|]. intros snap _ <-.
    destruct (negb (ok snap)); [constructor|].
    destruct (find (is_textbox USERNAME_PATTERN) (aria_nodes snap)); [|constructor].
    destruct (find (is_textbox PASSWORD_PATTERN) (aria_nodes snap)); [|constructor].
    eapply (sim_bind eq); [apply sim_fillField|]. intros _ _ _. apply sim_fillField.
Qed.

Lemma sim_vaultInjectTotp (itemRef : string) (totpRef : option string)
    (baseUrl profile vaultPrefix : option string) (logger : bool) :
  (forall v1 v2,
     vis (basePathOf itemRef vaultPrefix ++ "/one-time password") v1
     = vis (basePathOf itemRef vaultPrefix ++ "/one-time password") v2 ->
     truthy v1 = truthy v2) ->
  sim vis eq
    (vaultInjectTotp itemRef totpRef baseUrl profile vaultPrefix logger)
    (vaultInjectTotp itemRef totpRef baseUrl profile vaultPrefix logger).
Proof.
  intros Hvis. unfold vaultInjectTotp.
  eapply sim_bind; [apply sim_vaultResolve|]. intros c1 c2 Hc.
  unfold creds_rel in Hc.
  destruct (totp c1) as [v1|], (totp c2) as [v2|]; try contradiction; cbn [truthy_ref];
    [|now constructor].
  rewrite (Hvis _ _ Hc). destruct (truthy v2); [|now constructor].
  eapply (sim_bind eq); [| intros _ _ _; now constructor].
  destruct (truthy_ref totpRef) as [tref|]; [apply sim_fillField|].
  eapply sim_bind; [apply sim_snapshot|]. intros snap _ <-.
  destruct (negb (ok snap)); [constructor|].
  destruct (find (is_textbox TOTP_PATTERN) (aria_nodes snap)); [|constructor].
  apply sim_fillField.
Qed.

Lemma sim_fillFields (basePath profile : string) (entries : list (string * string))
    (filledCount : nat) (errors : list string) :
  sim vis eq
    (fillFields basePath profile entries filledCount errors)
    (fillFields basePath profile entries filledCount errors).
Proof.
  revert filledCount errors.
  induction entries as [|[ref fieldName] rest IH]; intros filledCount errors;
    cbn [fillFields].
  - now constructor.
  - eapply (sim_bind eq); [| intros acc _ <-; apply IH].
    apply sim_try_catch; [| intros msg; now constructor].
    eapply sim_bind; [apply sim_resolve|]. intros v1 v2 _.
    eapply (sim_bind eq); [apply sim_act|]. intros _ _ _. now constructor.
Qed.

Lemma sim_vaultFill (vaultPrefix : option string) (vaultItem : string)
    (fields : option (list (string * string))) (profile : option string) :
  sim vis eq
    (vaultFill vaultPrefix vaultItem fields profile)
    (vaultFill vaultPrefix vaultItem fields profile).
Proof.
  unfold vaultFill. destruct fields as [[|entry rest]|]; try now constructor.
  apply sim_try_catch; [| intros msg; now constructor].
  eapply sim_bind; [apply sim_getClient|]. intros _ _ _.
  eapply (sim_bind eq); [apply sim_log|]. intros _ _ _.
  eapply (sim_bind eq); [apply sim_fillFields|]. intros acc _ <-. now constructor.
Qed.

End SimFacts.

End VaultFacts.

Section VaultShapes.

Import Vault.

(** Scripted collaborators are indistinguishable when their vaults agree on
    what [vis] shows and their browsers do not look at the typed text. *)
Lemma scripted_equiv (vis : string -> string -> bool)
    (vault1 vault2 : string -> outcome string) (page : outcome SnapshotResult)
    (act1 act2 : BrowserActRequest -> outcome unit) :
  (forall path,
     match vault1 path, vault2 path with
     | Returned v1, Returned v2 => vis path v1 = vis path v2
     | Thrown m1, Thrown m2 => m1 = m2
     | _, _ => False
     end) ->
  (forall r1 r2, kind r1 = kind r2 -> act_ref r1 = act_ref r2 -> submit r1 = submit r2 ->
                 act1 r1 = act2 r2) ->
  env_equiv vis (scripted vault1 page act1) (scripted vault2 page act2).
Proof.
  intros Hvault Hact h1 h2 X1 X2 c1 c2 _ Hc.
  destruct c1, c2; simpl in Hc; try discriminate; simpl.
  - reflexivity.
  - injection Hc as <-. specialize (Hvault path).
    destruct (vault1 path), (vault2 path); try contradiction; congruence.
  - reflexivity.
  - injection Hc as _ Hk Hr Hs _. now rewrite (Hact _ _ Hk Hr Hs).
  - reflexivity.
Qed.

Lemma vaultInject_returns (e : env) (h : list event) (itemRef : string)
    (fieldMap : option (gmap string string)) (baseUrl profile vaultPrefix : option string)
    (logger : bool) (v : jsval) :
  fst (run e (vaultInject itemRef fieldMap baseUrl profile vaultPrefix logger) h) = Returned v ->
  v = filled true.
Proof.
  unfold vaultInject. rewrite run_bind.
  destruct (fst (run e (vaultResolve itemRef vaultPrefix logger) h)); [|discriminate].
  rewrite run_bind.
  match goal with |- context [fst (run e ?p ?hh)] => destruct (fst (run e p hh)) end;
    simpl; congruence.
Qed.

Lemma vaultInjectTotp_returns (e : env) (h : list event) (itemRef : string)
    (totpRef baseUrl profile vaultPrefix : option string) (logger : bool) (v : jsval) :
  fst (run e (vaultInjectTotp itemRef totpRef baseUrl profile vaultPrefix logger) h)
  = Returned v ->
  v = filled true \/ v = filled false.
Proof.
  unfold vaultInjectTotp. rewrite run_bind.
  destruct (fst (run e (vaultResolve itemRef vaultPrefix logger) h)) as [creds|];
    [|discriminate].
  destruct (truthy_ref (totp creds)); simpl; [|intros [= <-]; now right].
  rewrite run_bind.
  match goal with |- context [fst (run e ?p ?hh)] => destruct (fst (run e p hh)) end;
    simpl; [intros [= <-]; now left | discriminate].
Qed.

(** [vault_fill] catches everything: it always returns a payload. *)
Lemma vaultFill_returns (e : env) (h : list event) (vaultPrefix : option string)
    (vaultItem : string) (fields : option (list (string * string)))
    (profile : option string) :
  exists v, fst (run e (vaultFill vaultPrefix vaultItem fields profile) h) = Returned v.
Proof.
  unfold vaultFill. destruct fields as [[|entry rest]|]; try (now eexists).
  rewrite run_try_catch.
  match goal with |- context [fst (run e ?p ?hh)] => destruct (fst (run e p hh)) end;
    now eexists.
Qed.

End VaultShapes.

(** *** Claims on the credential bridge *)

(** C6 fails for the TOTP injection: two vaults that differ only in the
    value of the one-time password, empty in one and a code in the other,
    give different results. *)
Lemma totp_result_shows_empty_code :
  let vault (code : string) : string -> Vault.outcome string :=
    fun path =>
      Vault.Returned
        (if String.eqb path "op://Private/amazon/one-time password" then code else "hunter2") in
  let browser : Vault.BrowserActRequest -> Vault.outcome unit := fun _ => Vault.Returned tt in
  fst (Vault.run (Vault.scripted (vault "") (Vault.Thrown "no page") browser)
         (Vault.vaultInjectTotp "amazon" (Some "e9") None None None false) [])
  = Vault.Returned (Vault.filled false)
  /\ fst (Vault.run (Vault.scripted (vault "492039") (Vault.Thrown "no page") browser)
            (Vault.vaultInjectTotp "amazon" (Some "e9") None None None false) [])
     = Vault.Returned (Vault.filled true).
Proof. split; reflexivity. Qed.

(** C6 (amended). Run [vaultInject] or [vault_fill] against two sets of
    collaborators that differ only in the secret values the vault returns
    (same failures with the same messages, a browser that answers the same
    whatever text is typed): the outcomes are equal, and so are the calls
    made and the lines logged, up to the secrets.  The same holds for
    [vaultInjectTotp] when the two vaults also agree on whether the TOTP code
    is empty.  A returned result of [vaultInject] is [{filled: true}], of
    [vaultInjectTotp] [{filled: true}] or [{filled: false}], and
    [vault_fill] always returns a payload. *)
Theorem results_hide_secrets
    (e1 e2 : Vault.env) (h1 h2 : list Vault.event)
    (itemRef : string) (fieldMap : option (gmap string string))
    (totpRef baseUrl profile vaultPrefix : option string) (logger : bool)
    (fields : option (list (string * string))) :
  (Vault.env_equiv Vault.nothing e1 e2 ->
   map (Vault.view Vault.nothing) h1 = map (Vault.view Vault.nothing) h2 ->
   fst (Vault.run e1 (Vault.vaultInject itemRef fieldMap baseUrl profile vaultPrefix logger) h1)
   = fst (Vault.run e2 (Vault.vaultInject itemRef fieldMap baseUrl profile vaultPrefix logger) h2)
   /\ map (Vault.view Vault.nothing)
        (Vault.trace e1 (Vault.vaultInject itemRef fieldMap baseUrl profile vaultPrefix logger) h1)
      = map (Vault.view Vault.nothing)
          (Vault.trace e2 (Vault.vaultInject itemRef fieldMap baseUrl profile vaultPrefix logger) h2)
   /\ fst (Vault.run e1 (Vault.vaultFill vaultPrefix itemRef fields profile) h1)
      = fst (Vault.run e2 (Vault.vaultFill vaultPrefix itemRef fields profile) h2)
   /\ map (Vault.view Vault.nothing)
        (Vault.trace e1 (Vault.vaultFill vaultPrefix itemRef fields profile) h1)
      = map (Vault.view Vault.nothing)
          (Vault.trace e2 (Vault.vaultFill vaultPrefix itemRef fields profile) h2))
  /\ (let shown :=
        Vault.totp_emptiness (Vault.basePathOf itemRef vaultPrefix ++ "/one-time password") in
      Vault.env_equiv shown e1 e2 ->
      map (Vault.view shown) h1 = map (Vault.view shown) h2 ->
      fst (Vault.run e1 (Vault.vaultInjectTotp itemRef totpRef baseUrl profile vaultPrefix logger) h1)
      = fst (Vault.run e2 (Vault.vaultInjectTotp itemRef totpRef baseUrl profile vaultPrefix logger) h2)
      /\ map (Vault.view shown)
           (Vault.trace e1
              (Vault.vaultInjectTotp itemRef totpRef baseUrl profile vaultPrefix logger) h1)
         = map (Vault.view shown)
             (Vault.trace e2
                (Vault.vaultInjectTotp itemRef totpRef baseUrl profile vaultPrefix logger) h2))
  /\ (forall v,
        fst (Vault.run e1 (Vault.vaultInject itemRef fieldMap baseUrl profile vaultPrefix logger) h1)
        = Vault.Returned v -> v = Vault.filled true)
  /\ (forall v,
        fst (Vault.run e1
               (Vault.vaultInjectTotp itemRef totpRef baseUrl profile vaultPrefix logger) h1)
        = Vault.Returned v -> v = Vault.filled true \/ v = Vault.filled false)
  /\ (exists v,
        fst (Vault.run e1 (Vault.vaultFill vaultPrefix itemRef fields profile) h1)
        = Vault.Returned v).
Proof.
  split; [|split; [|split; [|split]]].
  - intros He Hh.
    destruct (sim_sound _ _ _ _ _ _ h1 h2
                (sim_vaultInject Vault.nothing itemRef fieldMap baseUrl profile vaultPrefix logger)
                He Hh) as [Ho Ht].
    destruct (sim_sound _ _ _ _ _ _ h1 h2
                (sim_vaultFill Vault.nothing vaultPrefix itemRef fields profile)
                He Hh) as [Ho' Ht'].
    apply outcome_rel_eq in Ho. apply outcome_rel_eq in Ho'. now repeat split.
  - intros shown He Hh.
    assert (Hvis : forall v1 v2,
               shown (Vault.basePathOf itemRef vaultPrefix ++ "/one-time password") v1
               = shown (Vault.basePathOf itemRef vaultPrefix ++ "/one-time password") v2 ->
               truthy v1 = truthy v2).
    { intros v1 v2. unfold shown, Vault.totp_emptiness. now rewrite String.eqb_refl. }
    destruct (sim_sound _ _ _ _ _ _ h1 h2
                (sim_vaultInjectTotp shown itemRef totpRef baseUrl profile vaultPrefix logger Hvis)
                He Hh) as [Ho Ht].
    apply outcome_rel_eq in Ho. now split.
  - apply vaultInject_returns.
  - apply vaultInjectTotp_returns.
  - apply vaultFill_returns.
Qed.

Lemma results_hide_secrets_witness :
  let vault (user pass : string) : string -> Vault.outcome string :=
    fun path =>
      if String.eqb path "op://Private/amazon/username" then Vault.Returned user
      else if String.eqb path "op://Private/amazon/password" then Vault.Returned pass
      else Vault.Thrown "field not found" in
  let browser : Vault.BrowserActRequest -> Vault.outcome unit :=
    fun req => if String.eqb (Vault.act_ref req) "e15" then Vault.Thrown "element is disabled"
               else Vault.Returned tt in
  fst (Vault.run (Vault.scripted (vault "alice@example.org" "hunter2") (Vault.Thrown "no page") browser)
         (Vault.vaultFill None "amazon" (Some [("e14", "username"); ("e15", "password")]) None) [])
  = fst (Vault.run (Vault.scripted (vault "bob" "correct horse") (Vault.Thrown "no page") browser)
           (Vault.vaultFill None "amazon" (Some [("e14", "username"); ("e15", "password")]) None) []).
Proof.
  intros vault browser.
  refine (proj1 (proj2 (proj2 (proj1
            (results_hide_secrets _ _ [] [] "amazon" None None None None None false _) _ _)))).
  - apply scripted_equiv.
    + intros path. unfold vault.
      destruct (String.eqb path "op://Private/amazon/username"); [reflexivity|].
      destruct (String.eqb path "op://Private/amazon/password"); reflexivity.
    + intros r1 r2 _ Href _. unfold browser. now rewrite Href.
  - reflexivity.
Defined.

Section InjectFacts.

Import Vault.

(** [vaultResolve] only asks for the client, logs, and reads secrets. *)
Lemma vaultResolve_calls (P : forall X : Type, call X -> Prop)
    (itemRef : string) (vaultPrefix : option string) (logger : bool) :
  P _ GetClient ->
  (forall msg, P _ (LoggerInfo msg)) ->
  (forall path, P _ (SecretsResolve path)) ->
  all_calls P (vaultResolve itemRef vaultPrefix logger).
Proof.
  intros Hclient Hlog Hsecret. unfold vaultResolve.
  apply all_calls_bind; [now apply all_calls_await|]. intros _.
  apply all_calls_bind.
  { destruct logger; [|constructor]. constructor; [apply Hlog|]. intros []. constructor. }
  intros _.
  apply all_calls_bind; [now apply all_calls_await|]. intros username.
  apply all_calls_bind; [now apply all_calls_await|]. intros password.
  apply all_calls_bind; [|intros totp; constructor].
  apply all_calls_try_catch; [|intros msg; constructor].
  apply all_calls_bind; [now apply all_calls_await|]. intros v. constructor.
Qed.

Lemma vaultResolve_no_snapshot (itemRef : string) (vaultPrefix : option string)
    (logger : bool) :
  all_calls not_snapshot (vaultResolve itemRef vaultPrefix logger).
Proof. now apply vaultResolve_calls. Qed.

Lemma fail_fast_no_act {A : Type} (p : io A) :
  all_calls (fun X c => is_act c = false) p -> fail_fast p.
Proof.
  intros Hp. induction Hp as [a | msg | X c k Hc Hk IH].
  - constructor.
  - constructor.
  - now apply ff_other.
Qed.

Lemma fail_fast_vaultResolve (itemRef : string) (vaultPrefix : option string)
    (logger : bool) :
  fail_fast (vaultResolve itemRef vaultPrefix logger).
Proof. apply fail_fast_no_act. now apply vaultResolve_calls. Qed.

Lemma fail_fast_fillField (baseUrl profile : option string) (ref value : string) :
  fail_fast (fillField baseUrl profile ref value).
Proof. apply fail_fast_await_act. Qed.

Lemma fail_fast_vaultInject (itemRef : string) (fieldMap : option (gmap string string))
    (baseUrl profile vaultPrefix : option string) (logger : bool) :
  fail_fast (vaultInject itemRef fieldMap baseUrl profile vaultPrefix logger).
Proof.
  unfold vaultInject.
  apply fail_fast_bind; [apply fail_fast_vaultResolve|]. intros creds.
  apply fail_fast_bind; [|intros _; constructor].
  assert (Hauto : forall snap : SnapshotResult,
             fail_fast
               (if negb (ok snap)
                then Throw "Failed to take page snapshot for credential injection"
                else
                  match find (is_textbox USERNAME_PATTERN) (aria_nodes snap),
                        find (is_textbox PASSWORD_PATTERN) (aria_nodes snap) with
                  | None, _ =>
                      Throw "Could not auto-detect username/email input field on page"
                  | Some _, None =>
                      Throw "Could not auto-detect password input field on page"
                  | Some emailNode, Some passwordNode =>
                      let* _ := fillField baseUrl profile (ref emailNode) (username creds) in
                      fillField baseUrl profile (ref passwordNode) (password creds)
                  end)).
  { intros snap. destruct (negb (ok snap)); [constructor|].
    destruct (find (is_textbox USERNAME_PATTERN) (aria_nodes snap)); [|constructor].
    destruct (find (is_textbox PASSWORD_PATTERN) (aria_nodes snap)); [|constructor].
    apply fail_fast_bind; [apply fail_fast_fillField|]. intros _. apply fail_fast_fillField. }
  destruct (truthy_ref (fieldMap ≫= (fun m => m !! "username"))) as [uref|];
    [destruct (truthy_ref (fieldMap ≫= (fun m => m !! "password"))) as [pref|]|].
  - apply fail_fast_bind; [apply fail_fast_fillField|]. intros _. apply fail_fast_fillField.
  - apply fail_fast_bind; [now apply fail_fast_await|]. exact Hauto.
  - apply fail_fast_bind; [now apply fail_fast_await|]. exact Hauto.
Qed.

Lemma fail_fast_vaultInjectTotp (itemRef : string)
    (totpRef baseUrl profile vaultPrefix : option string) (logger : bool) :
  fail_fast (vaultInjectTotp itemRef totpRef baseUrl profile vaultPrefix logger).
Proof.
  unfold vaultInjectTotp.
  apply fail_fast_bind; [apply fail_fast_vaultResolve|]. intros creds.
  destruct (truthy_ref (totp creds)) as [code|]; [|constructor].
  apply fail_fast_bind; [|intros _; constructor].
  destruct (truthy_ref totpRef) as [tref|]; [apply fail_fast_fillField|].
  apply fail_fast_bind; [now apply fail_fast_await|]. intros snap.
  destruct (negb (ok snap)); [constructor|].
  destruct (find (is_textbox TOTP_PATTERN) (aria_nodes snap)); [|constructor].
  apply fail_fast_fillField.
Qed.

(** With a client and both required fields in the vault, [vaultResolve]
    returns credentials. *)
Lemma vaultResolve_ok (e : env) (h : list event) (itemRef : string)
    (vaultPrefix : option string) (logger : bool) :
  (forall h', e h' _ GetClient = Returned tt) ->
  (forall h', exists v,
      e h' _ (SecretsResolve (basePathOf itemRef vaultPrefix ++ "/username")) = Returned v) ->
  (forall h', exists v,
      e h' _ (SecretsResolve (basePathOf itemRef vaultPrefix ++ "/password")) = Returned v) ->
  exists creds, fst (run e (vaultResolve itemRef vaultPrefix logger) h) = Returned creds.
Proof.
  intros Hclient Huser Hpass. unfold vaultResolve.
  rewrite run_bind, run_await, Hclient. cbn [fst snd].
  rewrite run_bind.
  match goal with |- context [run e (if logger then ?a else ?b) ?hh] =>
    assert (Hlog : fst (run e (if logger then a else b) hh) = Returned tt)
      by (destruct logger; simpl; [now destruct (e hh unit _) | reflexivity]);
    rewrite Hlog; clear Hlog;
    generalize (snd (run e (if logger then a else b) hh))
  end.
  intros h1. rewrite run_bind, run_await.
  destruct (Huser h1) as [u Hu]. rewrite Hu. cbn [fst snd].
  rewrite run_bind, run_await.
  match goal with |- context [e ?hh _ (SecretsResolve (_ ++ "/password"))] =>
    destruct (Hpass hh) as [p Hp]; rewrite Hp end.
  cbn [fst snd]. rewrite run_bind.
  match goal with |- context [fst (run e ?p ?hh)] => destruct (fst (run e p hh)) eqn:E end.
  - simpl. now eexists.
  - exfalso. rewrite run_try_catch in E.
    match type of E with context [fst (run e ?p ?hh)] => destruct (fst (run e p hh)) end;
      discriminate.
Qed.

Lemma find_is_Some {A : Type} (f : A -> bool) (l : list A) :
  (exists x, In x l /\ f x = true) -> exists y, find f l = Some y.
Proof.
  intros [x [Hin Hx]]. destruct (find f l) as [y|] eqn:E; [now exists y|].
  now rewrite (find_none _ _ E _ Hin) in Hx.
Qed.

Lemma find_is_None {A : Type} (f : A -> bool) (l : list A) :
  (forall x, In x l -> f x = false) -> find f l = None.
Proof.
  intros Hall. destruct (find f l) as [y|] eqn:E; [|reflexivity].
  apply find_some in E as [Hin Hy]. now rewrite (Hall _ Hin) in Hy.
Qed.

Lemma truthy_ref_Some (s : string) : s <> "" -> truthy_ref (Some s) = Some s.
Proof. intros H. simpl. apply truthy_true in H. now rewrite H. Qed.

Lemma vaultInject_explicit_no_snapshot (itemRef : string) (m : gmap string string)
    (baseUrl profile vaultPrefix : option string) (logger : bool) (u p : string) :
  m !! "username" = Some u -> u <> "" ->
  m !! "password" = Some p -> p <> "" ->
  all_calls not_snapshot (vaultInject itemRef (Some m) baseUrl profile vaultPrefix logger).
Proof.
  intros Hu Hune Hp Hpne. unfold vaultInject.
  apply all_calls_bind; [apply vaultResolve_no_snapshot|]. intros creds.
  apply all_calls_bind; [|intros _; constructor].
  cbn [mbind option_bind]. rewrite Hu, Hp, (truthy_ref_Some _ Hune), (truthy_ref_Some _ Hpne).
  apply all_calls_bind; [now apply all_calls_await|]. intros _.
  now apply all_calls_await.
Qed.

(** The auto-detect branch, once the credentials are resolved. *)
Lemma vaultInject_autodetect (e : env) (h : list event) (itemRef : string)
    (baseUrl profile vaultPrefix : option string) (logger : bool) (creds : VaultCredentials) :
  fst (run e (vaultResolve itemRef vaultPrefix logger) h) = Returned creds ->
  exists h1,
    run e (vaultInject itemRef None baseUrl profile vaultPrefix logger) h =
    run e
      (let* _ :=
         (let* snap := await (BrowserSnapshot baseUrl "aria" profile) in
          if negb (ok snap)
          then Throw "Failed to take page snapshot for credential injection" else
          match find (is_textbox USERNAME_PATTERN) (aria_nodes snap),
                find (is_textbox PASSWORD_PATTERN) (aria_nodes snap) with
          | None, _ => Throw "Could not auto-detect username/email input field on page"
          | Some _, None => Throw "Could not auto-detect password input field on page"
          | Some emailNode, Some passwordNode =>
              let* _ := fillField baseUrl profile (ref emailNode) (username creds) in
              fillField baseUrl profile (ref passwordNode) (password creds)
          end) in
       Ret (filled true)) h1.
Proof.
  intros Hcreds. unfold vaultInject. rewrite run_bind, Hcreds.
  now eexists.
Qed.

End InjectFacts.

(** C7 fails for a field map that names only one of the two fields: the
    map is supplied, and [vaultInject] still takes a snapshot to detect the
    fields. *)
Lemma partial_field_map_takes_snapshot :
  let fieldMap : gmap string string := {[ "username" := "e14" ]} in
  let vault : string -> Vault.outcome string := fun _ => Vault.Returned "hunter2" in
  let browser : Vault.BrowserActRequest -> Vault.outcome unit := fun _ => Vault.Returned tt in
  existsb (fun ev => match ev with Vault.Ev c _ => Vault.is_snapshot c end)
    (Vault.trace (Vault.scripted vault (Vault.Thrown "no page") browser)
       (Vault.vaultInject "amazon" (Some fieldMap) None None None false) [])
  = true.
Proof. reflexivity. Qed.

(** C7 (amended). When the field map gives non-empty refs for both
    [username] and [password], [vaultInject] takes no snapshot.  With no
    field map, a vault that resolves both fields and a browser whose actions
    succeed: a snapshot with a textbox matching the username pattern and one
    matching the password pattern leads to [{filled: true}], and a snapshot
    without a textbox matching the username pattern makes the call throw the
    username field-not-found error. *)
Theorem inject_field_resolution
    (e : Vault.env) (h : list Vault.event) (itemRef : string)
    (baseUrl profile vaultPrefix : option string) (logger : bool) :
  (forall (m : gmap string string) u p,
     m !! "username" = Some u -> u <> "" ->
     m !! "password" = Some p -> p <> "" ->
     Forall (fun ev => match ev with Vault.Ev c _ => Vault.is_snapshot c = false end)
       (Vault.trace e (Vault.vaultInject itemRef (Some m) baseUrl profile vaultPrefix logger) h))
  /\ (forall snap,
        (forall h', e h' _ Vault.GetClient = Vault.Returned tt) ->
        (forall h', exists v,
            e h' _ (Vault.SecretsResolve (Vault.basePathOf itemRef vaultPrefix ++ "/username"))
            = Vault.Returned v) ->
        (forall h', exists v,
            e h' _ (Vault.SecretsResolve (Vault.basePathOf itemRef vaultPrefix ++ "/password"))
            = Vault.Returned v) ->
        (forall h', e h' _ (Vault.BrowserSnapshot baseUrl "aria" profile) = Vault.Returned snap) ->
        Vault.ok snap = true ->
        (Vault.format snap = "aria" ->
         (exists n, In n (Vault.nodes snap)
                    /\ Vault.is_textbox Vault.USERNAME_PATTERN n = true) ->
         (exists n, In n (Vault.nodes snap)
                    /\ Vault.is_textbox Vault.PASSWORD_PATTERN n = true) ->
         (forall h' req, e h' _ (Vault.BrowserAct baseUrl req profile) = Vault.Returned tt) ->
         fst (Vault.run e (Vault.vaultInject itemRef None baseUrl profile vaultPrefix logger) h)
         = Vault.Returned (Vault.filled true))
        /\ ((forall n, In n (Vault.aria_nodes snap) ->
                       Vault.is_textbox Vault.USERNAME_PATTERN n = false) ->
            fst (Vault.run e (Vault.vaultInject itemRef None baseUrl profile vaultPrefix logger) h)
            = Vault.Thrown "Could not auto-detect username/email input field on page")).
Proof.
  split.
  - intros m u p Hu Hune Hp Hpne.
    apply (all_calls_trace Vault.not_snapshot).
    now apply (vaultInject_explicit_no_snapshot _ _ _ _ _ _ u p).
  - intros snap Hclient Huser Hpass Hsnap Hok.
    destruct (vaultResolve_ok e h itemRef vaultPrefix logger Hclient Huser Hpass)
      as [creds Hcreds].
    destruct (vaultInject_autodetect e h itemRef baseUrl profile vaultPrefix logger creds Hcreds)
      as [h1 ->].
    rewrite run_bind, run_bind, run_await, Hsnap. cbn [fst snd]. rewrite Hok. cbn [negb].
    split.
    + intros Hfmt Hemail Hpassword Hact.
      unfold Vault.aria_nodes. rewrite Hfmt. cbn [String.eqb Ascii.eqb Bool.eqb].
      destruct (find_is_Some _ _ Hemail) as [emailNode ->].
      destruct (find_is_Some _ _ Hpassword) as [passwordNode ->].
      unfold Vault.fillField. rewrite run_bind, run_await, Hact. cbn [fst snd].
      rewrite run_await, Hact. reflexivity.
    + intros Hnone. now rewrite (find_is_None _ _ Hnone).
Qed.

Lemma inject_field_resolution_witness :
  let page : Vault.SnapshotResult :=
    {| Vault.ok := true; Vault.format := "aria";
       Vault.nodes :=
         [ {| Vault.ref := "e3"; Vault.role := "button"; Vault.name := "Sign in";
              Vault.description := None |};
           {| Vault.ref := "e14"; Vault.role := "textbox"; Vault.name := "Email address";
              Vault.description := None |};
           {| Vault.ref := "e15"; Vault.role := "textbox"; Vault.name := "";
              Vault.description := Some "Your password" |} ] |} in
  fst (Vault.run
         (Vault.scripted (fun _ => Vault.Returned "hunter2") (Vault.Returned page)
            (fun _ => Vault.Returned tt))
         (Vault.vaultInject "amazon" None None (Some "openclaw") None true) [])
  = Vault.Returned (Vault.filled true).
Proof.
  intros page.
  refine (proj1 (proj2 (inject_field_resolution _ [] "amazon" None (Some "openclaw") None true)
                   page _ _ _ _ _) _ _ _ _).
  - reflexivity.
  - intros h'. now eexists.
  - intros h'. now eexists.
  - reflexivity.
  - reflexivity.
  - reflexivity.
  - eexists. split; [right; left; reflexivity | reflexivity].
  - eexists. split; [right; right; left; reflexivity | reflexivity].
  - reflexivity.
Defined.

Section FillFacts.

Import Vault.

(** One round of the loop: the secret is asked for once, the element is
    typed into at most once, the entry is either counted or reported, and a
    failed action is reported with its message. *)
Lemma fillFields_round (e : env) (h : list event) (basePath profile ref fieldName : string)
    (filledCount : nat) (errors : list string) :
  let body :=
    try_catch
      (let* value := await (SecretsResolve (basePath ++ "/" ++ resolveFieldName fieldName)) in
       let* _ := await (BrowserAct None
                          {| kind := "type"; act_ref := ref; text := value; submit := false |}
                          (Some profile)) in
       Ret (S filledCount, errors))
      (fun msg => Ret (filledCount, (errors ++ [field_error fieldName ref msg])%list)) in
  exists acc more,
    fst (run e body h) = Returned acc
    /\ snd acc = (errors ++ more)%list
    /\ fst acc + length more = S filledCount
    /\ resolved_paths (trace e body h) = [entry_path basePath (ref, fieldName)]
    /\ (typed_refs (trace e body h) = [] \/ typed_refs (trace e body h) = [ref])
    /\ (forall msg, In msg (failed_acts (trace e body h)) ->
                    In (field_error fieldName ref msg) more).
Proof.
  unfold entry_path. cbn [snd].
  remember (basePath ++ "/" ++ resolveFieldName fieldName) as path eqn:Hpath.
  cbn zeta. rewrite run_try_catch, trace_try_catch, run_bind, trace_bind, run_await.
  cbn [await trace fst snd].
  destruct (e h _ (SecretsResolve path)) as [value|msg] eqn:Ev.
  - rewrite run_bind, trace_bind, run_await. cbn [await trace fst snd].
    match goal with |- context [e ?hh _ (BrowserAct ?b ?r ?p)] =>
      destruct (e hh _ (BrowserAct b r p)) as [[]|msg] eqn:Ea end.
    + exists (S filledCount, errors), []. split; [reflexivity|]. cbn. rewrite ?Ea. cbn.
      rewrite app_nil_r. split; [reflexivity|]. split; [lia|]. split; [reflexivity|].
      split; [now right | intros msg []].
    + exists (filledCount, (errors ++ [field_error fieldName ref msg])%list),
        [field_error fieldName ref msg].
      split; [reflexivity|]. cbn. rewrite ?Ea. cbn.
      split; [reflexivity|]. split; [lia|]. split; [reflexivity|].
      split; [now right|]. intros msg' [<- | []]. now left.
  - exists (filledCount, (errors ++ [field_error fieldName ref msg])%list),
      [field_error fieldName ref msg].
    split; [reflexivity|]. cbn. rewrite ?Ev. cbn.
    split; [reflexivity|]. split; [lia|]. split; [reflexivity|].
    split; [now left | intros msg' []].
Qed.

Lemma fillFields_facts (e : env) (basePath profile : string)
    (entries : list (string * string)) :
  forall (h : list event) (filledCount : nat) (errors : list string),
  exists filledCount' more,
    fst (run e (fillFields basePath profile entries filledCount errors) h)
    = Returned (filledCount', (errors ++ more)%list)
    /\ filledCount' + length more = filledCount + length entries
    /\ resolved_paths (trace e (fillFields basePath profile entries filledCount errors) h)
       = map (entry_path basePath) entries
    /\ sublist (typed_refs (trace e (fillFields basePath profile entries filledCount errors) h))
         (map fst entries)
    /\ (forall msg,
          In msg (failed_acts
                    (trace e (fillFields basePath profile entries filledCount errors) h)) ->
          exists ref fieldName,
            In (ref, fieldName) entries /\ In (field_error fieldName ref msg) more).
Proof.
  induction entries as [|[ref fieldName] rest IH]; intros h filledCount errors;
    cbn [fillFields].
  - exists filledCount, []. simpl. rewrite app_nil_r.
    split; [reflexivity|]. split; [lia|]. split; [reflexivity|].
    split; [constructor | intros msg []].
  - destruct (fillFields_round e h basePath profile ref fieldName filledCount errors)
      as [acc [more1 [Hacc [Herrs [Hcount [Hpaths [Hrefs Hfail]]]]]]].
    rewrite run_bind, trace_bind, Hacc, run_trace.
    match goal with |- context [trace e ?b h] => set (body := b) in * end.
    destruct (IH (h ++ trace e body h)%list (fst acc) (snd acc))
      as [n' [more2 [Hr [Hc [Hp [Hs Hf]]]]]].
    exists n', (more1 ++ more2)%list.
    split; [rewrite Hr, Herrs, <- app_assoc; reflexivity|].
    split; [rewrite length_app; simpl; lia|].
    unfold resolved_paths, typed_refs, failed_acts in *. rewrite !omap_app.
    split; [|split].
    + rewrite Hpaths, Hp. reflexivity.
    + destruct Hrefs as [-> | ->]; cbn [app map fst].
      * now apply sublist_cons.
      * now apply sublist_skip.
    + intros msg Hin. apply in_app_iff in Hin as [Hin | Hin].
      * exists ref, fieldName. split; [now left|]. apply in_app_iff. left. now apply Hfail.
      * destruct (Hf msg Hin) as [ref' [fieldName' [Hin' Herr]]].
        exists ref', fieldName'. split; [now right|]. apply in_app_iff. now right.
Qed.

Lemma vaultFill_facts (e : env) (h : list event) (vaultPrefix : option string)
    (vaultItem : string) (fields : list (string * string)) (profile : option string) :
  fields <> [] ->
  e h _ GetClient = Returned tt ->
  exists filledCount errors,
    fst (run e (vaultFill vaultPrefix vaultItem (Some fields) profile) h)
    = Returned (fillPayload filledCount errors (length fields))
    /\ filledCount + length errors = length fields
    /\ resolved_paths (trace e (vaultFill vaultPrefix vaultItem (Some fields) profile) h)
       = map (entry_path (basePathOf vaultItem vaultPrefix)) fields
    /\ sublist (typed_refs (trace e (vaultFill vaultPrefix vaultItem (Some fields) profile) h))
         (map fst fields)
    /\ (forall msg,
          In msg (failed_acts
                    (trace e (vaultFill vaultPrefix vaultItem (Some fields) profile) h)) ->
          exists ref fieldName,
            In (ref, fieldName) fields /\ In (field_error fieldName ref msg) errors).
Proof.
  intros Hne Hclient. unfold vaultFill.
  destruct fields as [|entry rest] eqn:Ef; [contradiction|]. rewrite <- Ef. clear Hne.
  rewrite run_try_catch, trace_try_catch.
  rewrite ?run_bind, ?trace_bind, ?run_await.
  cbn [await perform run trace fst snd]. rewrite ?Hclient. cbn [run trace fst snd app].
  match goal with |- context [trace e (fillFields ?bp ?pr fields 0 []) ?hh] =>
    destruct (fillFields_facts e bp pr fields hh 0 []) as [n [errs [Hr [Hc [Hp [Hs Hf]]]]]]
  end.
  rewrite ?Hr. cbn [fst snd run trace app]. exists n, errs.
  split; [reflexivity|]. split; [simpl in Hc; lia|].
  unfold resolved_paths, typed_refs, failed_acts in *.
  rewrite ?app_nil_r. cbn [omap list_omap resolved_path typed_ref failed_act].
  split; [exact Hp|]. split; [exact Hs | exact Hf].
Qed.

End FillFacts.

(** C8 fails for [vault_fill]: the injection into the first field throws,
    and the second field is still resolved and typed; the failure is reported
    in the result. *)
Lemma vault_fill_continues_after_failure :
  let browser : Vault.BrowserActRequest -> Vault.outcome unit :=
    fun req => if String.eqb (Vault.act_ref req) "e20" then Vault.Thrown "element is disabled"
               else Vault.Returned tt in
  let e := Vault.scripted (fun _ => Vault.Returned "4111111111111111")
             (Vault.Thrown "no page") browser in
  let p := Vault.vaultFill None "visa" (Some [("e20", "card number"); ("e21", "cvv")]) None in
  Vault.failed_acts (Vault.trace e p []) = ["element is disabled"]
  /\ Vault.typed_refs (Vault.trace e p []) = ["e20"; "e21"]
  /\ fst (Vault.run e p [])
     = Vault.Returned
         (Vault.fillPayload 1 [Vault.field_error "card number" "e20" "element is disabled"] 2).
Proof. repeat split. Qed.

(** C8 (amended). In [vaultInject] and [vaultInjectTotp] a browser action
    that throws is the last thing the call does, and its error is the error
    of the call: no further field is tried, nothing is retried, nothing is
    undone.  [vault_fill] instead goes through all of [fields]: each entry is
    resolved exactly once, in order, each element is typed into at most
    once, every entry is either counted in [filled] or reported in [errors],
    and every action that threw is reported with its message; [success] is
    false as soon as [errors] is not empty. *)
Theorem injection_failures
    (e : Vault.env) (h : list Vault.event) (itemRef : string)
    (fieldMap : option (gmap string string))
    (totpRef baseUrl profile vaultPrefix : option string) (logger : bool) :
  (forall pre ev post msg,
     Vault.trace e (Vault.vaultInject itemRef fieldMap baseUrl profile vaultPrefix logger) h
     = (pre ++ ev :: post)%list ->
     Vault.failed_act ev = Some msg ->
     post = []
     /\ fst (Vault.run e (Vault.vaultInject itemRef fieldMap baseUrl profile vaultPrefix logger) h)
        = Vault.Thrown msg)
  /\ (forall pre ev post msg,
        Vault.trace e (Vault.vaultInjectTotp itemRef totpRef baseUrl profile vaultPrefix logger) h
        = (pre ++ ev :: post)%list ->
        Vault.failed_act ev = Some msg ->
        post = []
        /\ fst (Vault.run e
                  (Vault.vaultInjectTotp itemRef totpRef baseUrl profile vaultPrefix logger) h)
           = Vault.Thrown msg)
  /\ (forall fields,
        fields <> [] ->
        e h _ Vault.GetClient = Vault.Returned tt ->
        exists filledCount errors,
          fst (Vault.run e (Vault.vaultFill vaultPrefix itemRef (Some fields) profile) h)
          = Vault.Returned (Vault.fillPayload filledCount errors (length fields))
          /\ filledCount + length errors = length fields
          /\ Vault.resolved_paths
               (Vault.trace e (Vault.vaultFill vaultPrefix itemRef (Some fields) profile) h)
             = map (Vault.entry_path (Vault.basePathOf itemRef vaultPrefix)) fields
          /\ sublist
               (Vault.typed_refs
                  (Vault.trace e (Vault.vaultFill vaultPrefix itemRef (Some fields) profile) h))
               (map fst fields)
          /\ (forall msg,
                In msg (Vault.failed_acts
                          (Vault.trace e
                             (Vault.vaultFill vaultPrefix itemRef (Some fields) profile) h)) ->
                exists ref fieldName,
                  In (ref, fieldName) fields
                  /\ In (Vault.field_error fieldName ref msg) errors)).
Proof.
  split; [|split].
  - intros pre ev post msg. apply fail_fast_trace, fail_fast_vaultInject.
  - intros pre ev post msg. apply fail_fast_trace, fail_fast_vaultInjectTotp.
  - intros fields. apply vaultFill_facts.
Qed.

Lemma injection_failures_witness :
  let page : Vault.SnapshotResult :=
    {| Vault.ok := true; Vault.format := "aria";
       Vault.nodes :=
         [ {| Vault.ref := "e14"; Vault.role := "textbox"; Vault.name := "Email address";
              Vault.description := None |};
           {| Vault.ref := "e15"; Vault.role := "textbox"; Vault.name := "Password";
              Vault.description := None |} ] |} in
  let e := Vault.scripted (fun _ => Vault.Returned "hunter2") (Vault.Returned page)
             (fun _ => Vault.Thrown "element is disabled") in
  fst (Vault.run e (Vault.vaultInject "amazon" None None None None false) [])
  = Vault.Thrown "element is disabled".
Proof.
  intros page e.
  refine (proj2 (proj1 (injection_failures e [] "amazon" None None None None None false)
                   (removelast (Vault.trace e (Vault.vaultInject "amazon" None None None None false) []))
                   (Vault.Ev
                      (Vault.BrowserAct None
                         {| Vault.kind := "type"; Vault.act_ref := "e14";
                            Vault.text := "hunter2"; Vault.submit := false |} None)
                      (Vault.Thrown "element is disabled"))
                   [] "element is disabled" _ _)).
  - reflexivity.
  - reflexivity.
Defined.

(** ** Part III: further properties of the code *)

(** *** The guard, the tracker and their wiring *)

Section GuardMore.

Variable url_hostname : url_parser.

(** When the handler refuses, in full. *)
Lemma guardHandler_block_iff (sensitiveDomains : list string)
    (getter : option (option string)) (event : BeforeToolCallEvent) (last : option string) :
  fst (guardHandler url_hostname sensitiveDomains getter event last) = Block blockReason <->
  toolName event = "browser"
  /\ action_of (params event) = "act"
  /\ exists u, effective_url getter last = Some u
               /\ u <> ""
               /\ isSensitiveDomain url_hostname u sensitiveDomains = true
               /\ test PURCHASE_KEYWORDS (extractActText (params event)) = true.
Proof.
  destruct (string_dec (toolName event) "browser") as [Htool | Htool].
  - destruct (string_dec (action_of (params event)) "act") as [Hact | Hact].
    + destruct (effective_url getter last) as [u|] eqn:Hurl.
      * rewrite (guardHandler_act _ _ _ _ _ _ Htool Hact Hurl). cbn [fst].
        destruct (truthy u) eqn:Hu; cbn [andb].
        -- apply truthy_true in Hu.
           destruct (isSensitiveDomain url_hostname u sensitiveDomains) eqn:Hs; cbn [andb].
           ++ destruct (test PURCHASE_KEYWORDS (extractActText (params event))).
              ** split; [|reflexivity]. intros _. split; [exact Htool|].
                 split; [exact Hact|]. exists u. now repeat split.
              ** split; [discriminate|]. intros [_ [_ [v [Hv [_ [_ H]]]]]]. discriminate.
           ++ split; [discriminate|]. intros [_ [_ [v [Hv [_ [H _]]]]]].
              injection Hv as <-. congruence.
        -- split; [discriminate|]. intros [_ [_ [v [Hv [H _]]]]].
           injection Hv as <-. apply truthy_true in H. congruence.
      * split.
        -- unfold guardHandler. rewrite Htool, Hact. simpl.
           destruct (as_string (get_prop (params event) "targetUrl")); rewrite Hurl;
             discriminate.
        -- intros [_ [_ [v [H _]]]]. discriminate.
    + rewrite (guardHandler_not_act _ _ _ _ _ Hact). split; [discriminate|].
      intros [_ [H _]]. contradiction.
  - split.
    + unfold guardHandler.
      destruct (String.eqb (toolName event) "browser") eqn:E;
        [apply String.eqb_eq in E; contradiction | discriminate].
    + intros [H _]. contradiction.
Qed.

Lemma isSensitiveDomain_app (url : string) (ds ds' : list string) :
  isSensitiveDomain url_hostname url (ds ++ ds')%list =
  isSensitiveDomain url_hostname url ds || isSensitiveDomain url_hostname url ds'.
Proof. unfold isSensitiveDomain. destruct (url_hostname url); apply existsb_app. Qed.

End GuardMore.

(** X1. Configuring more sensitive domains never lets through an action
    that was refused: a refusal under [ds] stays a refusal with domains
    added before or after; and with no domain configured nothing is ever
    refused. *)
Theorem guard_refusals_grow_with_domains
    (url_hostname : url_parser) (ds ds' : list string)
    (getter : option (option string)) (event : BeforeToolCallEvent) (last : option string) :
  (fst (guardHandler url_hostname ds getter event last) = Block blockReason ->
   fst (guardHandler url_hostname (ds ++ ds')%list getter event last) = Block blockReason
   /\ fst (guardHandler url_hostname (ds' ++ ds)%list getter event last) = Block blockReason)
  /\ fst (guardHandler url_hostname [] getter event last) = Pass.
Proof.
  split.
  - intros H. apply guardHandler_block_iff in H as [Ht [Ha [u [Hu [Hne [Hs Hk]]]]]].
    split; apply guardHandler_block_iff; (split; [exact Ht|]); (split; [exact Ha|]);
      exists u; rewrite isSensitiveDomain_app, Hs; repeat split; auto using orb_true_r.
  - destruct (guardHandler_cases url_hostname [] getter event last) as [H | H]; [exact H|].
    apply guardHandler_block_iff in H as [_ [_ [u [_ [_ [Hs _]]]]]].
    unfold isSensitiveDomain in Hs. destruct (url_hostname u); discriminate.
Qed.

Lemma guard_refusals_grow_with_domains_witness :
  fst (guardHandler SimpleUrl.hostname (["shop.test"] ++ ["amazon.com"])%list
         (Some (Some "https://shop.test/cart"))
         {| toolName := "browser";
            params := JObj [("action", JStr "act");
                            ("request", JObj [("kind", JStr "click"); ("ref", JStr "checkout")])] |}
         None) = Block blockReason.
Proof.
  refine (proj1 (proj1 (guard_refusals_grow_with_domains SimpleUrl.hostname ["shop.test"]
                          ["amazon.com"] _ _ None) _)).
  reflexivity.
Defined.

Section TextMore.

Lemma test_substring (r : regex) (a m b : string) :
  test r m = true -> test r (a ++ m ++ b) = true.
Proof.
  rewrite !test_spec. intros [pre [m' [post [-> H]]]].
  exists (a ++ pre), m', (post ++ b). split; [|exact H].
  now rewrite !append_assoc.
Qed.

Lemma join_part (sep p : string) (parts : list string) :
  In p parts -> exists a b, join sep parts = a ++ p ++ b.
Proof.
  induction parts as [|q rest IH]; intros Hin; [contradiction|].
  destruct Hin as [-> | Hin].
  - destruct rest as [|q' rest]; cbn [join].
    + exists "", "". now rewrite append_empty_r.
    + now exists "", (sep ++ join sep (q' :: rest)).
  - destruct (IH Hin) as [a [b Hab]]. destruct rest as [|q' rest]; [contradiction|].
    cbn [join] in *. rewrite Hab. exists (q ++ sep ++ a), b. now rewrite !append_assoc.
Qed.

Lemma push_if_string_keeps (v : jsval) (parts : list string) (x : string) :
  In x parts -> In x (push_if_string v parts).
Proof.
  intros H. unfold push_if_string. destruct (as_string v); [|exact H].
  apply in_app_iff. now left.
Qed.

Lemma push_if_string_adds (v : jsval) (parts : list string) (s : string) :
  as_string v = Some s -> In s (push_if_string v parts).
Proof.
  intros H. unfold push_if_string. rewrite H. apply in_app_iff. right. now left.
Qed.

(** A value with a string property is an object, hence truthy. *)
Lemma string_prop_truthy (v : jsval) (k s : string) :
  as_string (get_prop v k) = Some s -> js_truthy v = true.
Proof. destruct v; simpl; try discriminate. reflexivity. Qed.

Lemma existsb_map {A B : Type} (f : B -> bool) (g : A -> B) (l : list A) :
  existsb f (map g l) = existsb (fun x => f (g x)) l.
Proof. induction l as [|x l IH]; simpl; [reflexivity | now rewrite IH]. Qed.

Lemma canonicalize_lower (x : ascii) :
  canonicalize (lower_unit x) = canonicalize x
  \/ ((128 <=? N_of_ascii (canonicalize x))%N = true
      /\ (128 <=? N_of_ascii (canonicalize (lower_unit x)))%N = true).
Proof. destruct x as [[] [] [] [] [] [] [] []]; vm_compute; auto. Qed.

Lemma canonicalize_ascii (p : ascii) :
  (N_of_ascii p <? 128)%N = true -> (128 <=? N_of_ascii (canonicalize p))%N = false.
Proof. destruct p as [[] [] [] [] [] [] [] []]; vm_compute; auto. Qed.

Lemma chr_matches_lower (p x : ascii) :
  (N_of_ascii p <? 128)%N = true -> chr_matches p (lower_unit x) = chr_matches p x.
Proof.
  intros Hp. apply canonicalize_ascii in Hp. unfold chr_matches.
  destruct (canonicalize_lower x) as [-> | [H1 H2]]; [reflexivity|].
  destruct (Ascii.eqb (canonicalize p) (canonicalize (lower_unit x))) eqn:E1.
  - apply Ascii.eqb_eq in E1. rewrite E1 in Hp. congruence.
  - destruct (Ascii.eqb (canonicalize p) (canonicalize x)) eqn:E2; [|reflexivity].
    apply Ascii.eqb_eq in E2. rewrite E2 in Hp. congruence.
Qed.

Lemma dot_matches_lower (x : ascii) : dot_matches (lower_unit x) = dot_matches x.
Proof. destruct x as [[] [] [] [] [] [] [] []]; reflexivity. Qed.

Lemma deriv_lower (r : regex) (x : ascii) :
  ascii_pattern r = true -> deriv (lower_unit x) r = deriv x r.
Proof.
  induction r; simpl; intros H; try reflexivity.
  - now rewrite chr_matches_lower.
  - now rewrite dot_matches_lower.
  - apply andb_true_iff in H as [H1 H2]. now rewrite IHr1, IHr2.
  - apply andb_true_iff in H as [H1 H2]. now rewrite IHr1, IHr2.
  - auto.
  - now rewrite IHr.
Qed.

Lemma ascii_pattern_deriv (r : regex) (x : ascii) :
  ascii_pattern r = true -> ascii_pattern (deriv x r) = true.
Proof.
  induction r; simpl; intros H; try reflexivity.
  - now destruct (chr_matches c x).
  - now destruct (dot_matches x).
  - apply andb_true_iff in H as [H1 H2].
    destruct (nullable r1); simpl; now rewrite ?IHr1, ?IHr2, ?H2.
  - apply andb_true_iff in H as [H1 H2]. now rewrite IHr1, IHr2.
  - auto.
  - now rewrite IHr, H.
Qed.

Lemma match_here_lower (r : regex) (s : string) :
  ascii_pattern r = true -> match_here r (toLowerCase s) = match_here r s.
Proof.
  revert r. induction s as [|x s IH]; intros r H; cbn [toLowerCase match_here]; [reflexivity|].
  rewrite deriv_lower by exact H. rewrite IH; [reflexivity|]. now apply ascii_pattern_deriv.
Qed.

Lemma test_lower (r : regex) (s : string) :
  ascii_pattern r = true -> test r (toLowerCase s) = test r s.
Proof.
  intros H. induction s as [|x s IH].
  - reflexivity.
  - change (toLowerCase (String x s)) with (String (lower_unit x) (toLowerCase s)).
    cbn [test]. rewrite IH.
    change (String (lower_unit x) (toLowerCase s)) with (toLowerCase (String x s)).
    now rewrite match_here_lower.
Qed.

End TextMore.

(** X2. A purchase keyword in any one of the inspected fields is found:
    if the request's [text], [ref] or [key], or the top-level [targetUrl], is
    a string that the pattern matches, the extracted text matches too,
    whatever the other fields hold. *)
Theorem keyword_in_any_field_is_found (r : regex) (params : jsval) (s : string) :
  test r s = true ->
  as_string (get_prop (get_prop params "request") "text") = Some s
  \/ as_string (get_prop (get_prop params "request") "ref") = Some s
  \/ as_string (get_prop (get_prop params "request") "key") = Some s
  \/ as_string (get_prop params "targetUrl") = Some s ->
  test r (extractActText params) = true.
Proof.
  intros Hs Hfield.
  assert (Hin : exists parts, extractActText params = join " " parts /\ In s parts).
  { unfold extractActText. eexists. split; [reflexivity|].
    destruct Hfield as [H | [H | [H | H]]].
    - rewrite (string_prop_truthy _ _ _ H).
      do 3 apply push_if_string_keeps. now apply push_if_string_adds.
    - rewrite (string_prop_truthy _ _ _ H).
      do 2 apply push_if_string_keeps. now apply push_if_string_adds.
    - rewrite (string_prop_truthy _ _ _ H).
      apply push_if_string_keeps. now apply push_if_string_adds.
    - now apply push_if_string_adds. }
  destruct Hin as [parts [-> Hin]]. destruct (join_part " " _ _ Hin) as [a [b ->]].
  now apply test_substring.
Qed.

Lemma keyword_in_any_field_is_found_witness :
  test PURCHASE_KEYWORDS
    (extractActText (JObj [("action", JStr "act");
                           ("request", JObj [("kind", JStr "press"); ("ref", JStr "e7");
                                             ("key", JStr "Enter"); ("text", JStr "Pay now")])]))
  = true.
Proof.
  apply (keyword_in_any_field_is_found _ _ "Pay now"); [reflexivity | left; reflexivity].
Defined.

(** X3. Matching is blind to letter case: two domain lists that agree up
    to case classify every URL alike, and the purchase-keyword test gives the
    same answer on a text and on its lower-cased form. *)
Theorem guard_matching_ignores_case
    (url_hostname : url_parser) (url : string) (ds ds' : list string) (s : string) :
  (map toLowerCase ds = map toLowerCase ds' ->
   isSensitiveDomain url_hostname url ds = isSensitiveDomain url_hostname url ds')
  /\ test PURCHASE_KEYWORDS (toLowerCase s) = test PURCHASE_KEYWORDS s.
Proof.
  split.
  - intros Hds. unfold isSensitiveDomain, host_matches. destruct (url_hostname url) as [h|].
    + rewrite <- (existsb_map
                    (fun d => String.eqb (toLowerCase h) d
                              || String.eqb (toLowerCase h) ("www." ++ d)
                              || endsWith (toLowerCase h) ("." ++ d)) toLowerCase ds).
      rewrite <- (existsb_map
                    (fun d => String.eqb (toLowerCase h) d
                              || String.eqb (toLowerCase h) ("www." ++ d)
                              || endsWith (toLowerCase h) ("." ++ d)) toLowerCase ds').
      now rewrite Hds.
    + rewrite <- (existsb_map (fun d => includes (toLowerCase url) d) toLowerCase ds).
      rewrite <- (existsb_map (fun d => includes (toLowerCase url) d) toLowerCase ds').
      now rewrite Hds.
  - now apply test_lower.
Qed.

Lemma guard_matching_ignores_case_witness :
  isSensitiveDomain SimpleUrl.hostname "https://www.Amazon.com/gp/cart" ["AMAZON.com"]
  = isSensitiveDomain SimpleUrl.hostname "https://www.Amazon.com/gp/cart" ["amazon.com"].
Proof.
  apply (proj1 (guard_matching_ignores_case SimpleUrl.hostname _ _ _ "")). reflexivity.
Defined.

(** X4. Wired as in [register], the guard judges an [act] by the URL the
    tracker recorded from the previous browser call: after a [navigate] to
    [t] whose result carries the string [url] (or, failing that, [t]
    itself), the navigation passes, the cell holds that URL, and the next
    [act] is refused exactly when that URL is non-empty and sensitive and the
    text has a purchase keyword. *)
Theorem guard_sees_url_after_navigation
    (url_hostname : url_parser) (ds : list string) (st : Wiring.hooks)
    (navParams result actParams : jsval) (t : string) :
  action_of navParams = "navigate" ->
  as_string (get_prop navParams "targetUrl") = Some t ->
  action_of actParams = "act" ->
  fst (Wiring.before_tool_call url_hostname ds
         {| toolName := "browser"; params := navParams |} st) = Pass
  /\ Wiring.currentUrl
       (Wiring.after_tool_call
          {| a_toolName := "browser"; a_params := navParams; a_result := result |}
          (snd (Wiring.before_tool_call url_hostname ds
                  {| toolName := "browser"; params := navParams |} st)))
     = Some (default t (as_string (get_prop result "url")))
  /\ (fst (Wiring.before_tool_call url_hostname ds
             {| toolName := "browser"; params := actParams |}
             (Wiring.after_tool_call
                {| a_toolName := "browser"; a_params := navParams; a_result := result |}
                (snd (Wiring.before_tool_call url_hostname ds
                        {| toolName := "browser"; params := navParams |} st))))
      = Block blockReason
      <-> default t (as_string (get_prop result "url")) <> ""
          /\ isSensitiveDomain url_hostname (default t (as_string (get_prop result "url"))) ds
             = true
          /\ test PURCHASE_KEYWORDS (extractActText actParams) = true).
Proof.
  intros Hnav Ht Hact.
  assert (Hcell : trackerHandler
                    {| a_toolName := "browser"; a_params := navParams; a_result := result |}
                    (Wiring.currentUrl st)
                  = Some (default t (as_string (get_prop result "url")))).
  { rewrite trackerHandler_browser by reflexivity. simpl. rewrite Hnav, Ht. simpl.
    now destruct (as_string (get_prop result "url")). }
  split; [|split].
  - unfold Wiring.before_tool_call. cbn [fst]. apply guardHandler_not_act.
    simpl. rewrite Hnav. discriminate.
  - simpl. exact Hcell.
  - unfold Wiring.before_tool_call, Wiring.after_tool_call. cbn [fst snd Wiring.currentUrl
      Wiring.lastKnownUrl]. rewrite guardHandler_block_iff. unfold getCurrentUrl.
    rewrite Hcell. simpl. split.
    + intros [_ [_ [u [[= <-] H]]]]. exact H.
    + intros H. split; [reflexivity|]. split; [exact Hact|]. now eexists.
Qed.

Lemma guard_sees_url_after_navigation_witness :
  fst (Wiring.before_tool_call SimpleUrl.hostname ["shop.test"]
         {| toolName := "browser";
            params := JObj [("action", JStr "act");
                            ("request", JObj [("kind", JStr "click");
                                              ("text", JStr "Place your order")])] |}
         (Wiring.after_tool_call
            {| a_toolName := "browser";
               a_params := JObj [("action", JStr "navigate");
                                 ("targetUrl", JStr "http://go.test/r")];
               a_result := JObj [("ok", JBool true);
                                 ("url", JStr "https://shop.test/checkout")] |}
            (snd (Wiring.before_tool_call SimpleUrl.hostname ["shop.test"]
                    {| toolName := "browser";
                       params := JObj [("action", JStr "navigate");
                                       ("targetUrl", JStr "http://go.test/r")] |}
                    Wiring.start))))
  = Block blockReason.
Proof.
  refine (proj2 (proj2 (proj2 (guard_sees_url_after_navigation SimpleUrl.hostname ["shop.test"]
                                 Wiring.start _ _ _ "http://go.test/r" _ _ _))) _).
  - reflexivity.
  - reflexivity.
  - reflexivity.
  - repeat split. discriminate.
Defined.

(** X5. The guard's own [lastKnownUrl] is only a fallback.  Without a
    getter, or while the getter yields null, a browser [navigate] to [t]
    records [t] and the next [act] is judged by [t]; as soon as the getter
    yields a URL, [lastKnownUrl] has no influence on any decision. *)
Theorem guard_falls_back_on_own_tracking
    (url_hostname : url_parser) (ds : list string) (getter : option (option string))
    (last : option string) (navParams actParams : jsval) (t : string) :
  getter = None \/ getter = Some None ->
  action_of navParams = "navigate" ->
  as_string (get_prop navParams "targetUrl") = Some t ->
  action_of actParams = "act" ->
  snd (guardHandler url_hostname ds getter {| toolName := "browser"; params := navParams |} last)
  = Some t
  /\ (fst (guardHandler url_hostname ds getter
             {| toolName := "browser"; params := actParams |}
             (snd (guardHandler url_hostname ds getter
                     {| toolName := "browser"; params := navParams |} last)))
      = Block blockReason
      <-> t <> "" /\ isSensitiveDomain url_hostname t ds = true
          /\ test PURCHASE_KEYWORDS (extractActText actParams) = true)
  /\ (forall u event last1 last2,
        fst (guardHandler url_hostname ds (Some (Some u)) event last1)
        = fst (guardHandler url_hostname ds (Some (Some u)) event last2)).
Proof.
  intros Hg Hnav Ht Hact.
  assert (Hlast : snd (guardHandler url_hostname ds getter
                         {| toolName := "browser"; params := navParams |} last) = Some t).
  { unfold guardHandler. simpl. rewrite Hnav, Ht. reflexivity. }
  split; [exact Hlast|]. split.
  - rewrite Hlast, guardHandler_block_iff. simpl.
    assert (He : effective_url getter (Some t) = Some t) by now destruct Hg as [-> | ->].
    rewrite He. split.
    + intros [_ [_ [u [[= <-] H]]]]. exact H.
    + intros H. split; [reflexivity|]. split; [exact Hact|]. now eexists.
  - intros u event last1 last2.
    destruct (guardHandler_cases url_hostname ds (Some (Some u)) event last1) as [H1 | H1];
      destruct (guardHandler_cases url_hostname ds (Some (Some u)) event last2) as [H2 | H2];
      rewrite ?H1, ?H2; try reflexivity.
    + apply guardHandler_block_iff in H2.
      change (effective_url (Some (Some u)) last2) with (effective_url (Some (Some u)) last1) in H2.
      apply guardHandler_block_iff in H2. congruence.
    + apply guardHandler_block_iff in H1.
      change (effective_url (Some (Some u)) last1) with (effective_url (Some (Some u)) last2) in H1.
      apply guardHandler_block_iff in H1. congruence.
Qed.

Lemma guard_falls_back_on_own_tracking_witness :
  fst (guardHandler SimpleUrl.hostname ["shop.test"] None
         {| toolName := "browser";
            params := JObj [("action", JStr "act");
                            ("request", JObj [("kind", JStr "click"); ("text", JStr "Buy now")])] |}
         (snd (guardHandler SimpleUrl.hostname ["shop.test"] None
                 {| toolName := "browser";
                    params := JObj [("action", JStr "navigate");
                                    ("targetUrl", JStr "https://shop.test/item/4")] |}
                 None)))
  = Block blockReason.
Proof.
  refine (proj2 (proj1 (proj2 (guard_falls_back_on_own_tracking SimpleUrl.hostname ["shop.test"]
                                 None None _ _ "https://shop.test/item/4" _ _ _ _))) _).
  - now left.
  - reflexivity.
  - reflexivity.
  - reflexivity.
  - repeat split. discriminate.
Defined.

(** *** The approval ledger, further *)

(** X6. In every state the three writers can reach, no [resolve] has been
    called twice, every stored entry is stored under its own id's timer,
    which is still armed, and the promise of an armed timer is still
    pending: an entry cannot outlive its timer, and a resolved approval
    cannot be resolved again by its timer. *)
Theorem ledger_never_double_fires (st : Ledger.state) :
  Ledger.reachable st ->
  (forall r, Ledger.times_called r (Ledger.calls st) <= 1)
  /\ (forall approvalId entry,
        Ledger.pendingApprovals st !! approvalId = Some entry ->
        exists cb, Ledger.timers st !! Ledger.pa_timeout entry = Some cb
                   /\ Ledger.tc_approvalId cb = approvalId
                   /\ Ledger.tc_resolve cb = Ledger.pa_resolve entry)
  /\ (forall h cb,
        Ledger.timers st !! h = Some cb ->
        Ledger.settled (Ledger.tc_resolve cb) (Ledger.calls st) = None).
Proof.
  intros Hreach. pose proof (invariant_reachable _ Hreach) as Hinv. split; [|split].
  - intros r. destruct (decide (r ∈ (Ledger.calls st).*1)) as [Hin | Hnot].
    + rewrite (times_called_unique _ _ (Ledger.inv_once _ Hinv) Hin). lia.
    + rewrite (times_called_never _ _ Hnot). lia.
  - apply (Ledger.inv_entry _ Hinv).
  - intros h cb Hcb. apply settled_never. now destruct (Ledger.inv_timer _ Hinv _ _ Hcb).
Qed.

Lemma ledger_never_double_fires_witness :
  Ledger.times_called 0
    (Ledger.calls
       (Ledger.run [Ledger.Create "ab12cd34" 5000; Ledger.Resolve "ab12cd34" true;
                    Ledger.Fire 0; Ledger.Resolve "ab12cd34" false] Ledger.initial)) <= 1.
Proof.
  refine (proj1 (ledger_never_double_fires _ _) 0). now eexists.
Defined.

(** X7. The timer of a replaced approval still names the shared id: when
    [waitForApproval] has overwritten a live entry and the old timer fires,
    the old promise settles to [false] and the entry of the NEW approval is
    deleted; the new approval is then still pending with its timer armed,
    but [resolveApproval] on the id returns [false], so it can only time
    out. *)
Theorem stale_timer_evicts_replacement
    (st : Ledger.state) (approvalId : string) (timeoutMs : Z) (old : Ledger.PendingApproval) :
  Ledger.reachable st ->
  Ledger.pendingApprovals st !! approvalId = Some old ->
  let st1 := snd (Ledger.waitForApproval approvalId timeoutMs st) in
  let st2 := Ledger.timerFires (Ledger.pa_timeout old) st1 in
  Ledger.settled (Ledger.pa_resolve old) (Ledger.calls st2) = Some false
  /\ Ledger.pendingApprovals st2 !! approvalId = None
  /\ Ledger.timers st2 !! Ledger.next_timer st
     = Some {| Ledger.tc_approvalId := approvalId;
               Ledger.tc_resolve := fst (Ledger.waitForApproval approvalId timeoutMs st);
               Ledger.tc_timeoutMs := timeoutMs |}
  /\ Ledger.settled (fst (Ledger.waitForApproval approvalId timeoutMs st)) (Ledger.calls st2)
     = None
  /\ (forall approved, Ledger.resolveApproval approvalId approved st2 = (false, st2)).
Proof.
  intros Hreach Hold st1 st2.
  pose proof (invariant_reachable _ Hreach) as Hinv.
  destruct (Ledger.inv_entry _ Hinv _ _ Hold) as [cb [Hcb [Hid Hr]]].
  destruct (Ledger.inv_timer _ Hinv _ _ Hcb) as [Hnot [Hlt Hlr]].
  assert (Hinv1 : Ledger.invariant st1) by now apply invariant_create.
  assert (Hcb1 : Ledger.timers st1 !! Ledger.pa_timeout old = Some cb).
  { subst st1. simpl. rewrite lookup_insert_ne by lia. exact Hcb. }
  destruct (timerFires_armed _ _ _ Hinv1 Hcb1) as [Hgone [Hoff [Hcalls Hsettled]]].
  assert (Hinv2 : Ledger.invariant st2).
  { apply (invariant_step (Ledger.Fire (Ledger.pa_timeout old)) _ Hinv1). }
  assert (Hnew : Ledger.timers st2 !! Ledger.next_timer st
                 = Some {| Ledger.tc_approvalId := approvalId;
                           Ledger.tc_resolve := fst (Ledger.waitForApproval approvalId timeoutMs st);
                           Ledger.tc_timeoutMs := timeoutMs |}).
  { subst st2. unfold Ledger.timerFires. rewrite Hcb1. simpl.
    rewrite lookup_delete_ne by lia. apply lookup_insert_eq. }
  rewrite Hid in Hgone. rewrite Hr in Hsettled.
  split; [exact Hsettled|]. split; [exact Hgone|]. split; [exact Hnew|]. split.
  - apply settled_never. now destruct (Ledger.inv_timer _ Hinv2 _ _ Hnew).
  - intros approved. now apply resolveApproval_absent.
Qed.

Lemma stale_timer_evicts_replacement_witness :
  Ledger.resolveApproval "ab12cd34" true
    (Ledger.timerFires 0
       (snd (Ledger.waitForApproval "ab12cd34" 5000
               (Ledger.run [Ledger.Create "ab12cd34" 5000] Ledger.initial))))
  = (false,
     Ledger.timerFires 0
       (snd (Ledger.waitForApproval "ab12cd34" 5000
               (Ledger.run [Ledger.Create "ab12cd34" 5000] Ledger.initial)))).
Proof.
  refine (proj2 (proj2 (proj2 (proj2
            (stale_timer_evicts_replacement
               (Ledger.run [Ledger.Create "ab12cd34" 5000] Ledger.initial) "ab12cd34" 5000
               {| Ledger.pa_id := "ab12cd34"; Ledger.pa_resolve := 0; Ledger.pa_timeout := 0 |}
               _ _)))) true).
  - now eexists.
  - simpl. apply lookup_insert_eq.
Defined.

Section TextFacts.

Import JsText.

Lemma trimStart_spaces (pad s : string) :
  all_space pad = true -> trimStart (pad ++ s) = trimStart s.
Proof.
  induction pad as [|c pad IH]; simpl; intros H; [reflexivity|].
  apply andb_true_iff in H as [Hc Hpad]. rewrite Hc. now apply IH.
Qed.

Lemma trimStart_token (t s : string) :
  no_space t = true -> t <> "" -> trimStart (t ++ s) = t ++ s.
Proof.
  destruct t as [|c t]; [contradiction|]. simpl. intros H _.
  apply andb_true_iff in H as [Hc _]. apply negb_true_iff in Hc. now rewrite Hc.
Qed.

Lemma trimEnd_spaces (s pad : string) :
  all_space pad = true -> trimEnd (s ++ pad) = trimEnd s.
Proof.
  intros Hpad. induction s as [|c s IH].
  - simpl. induction pad as [|c pad IH]; [reflexivity|]. simpl in *.
    apply andb_true_iff in Hpad as [Hc Hpad]. now rewrite (IH Hpad), Hc.
  - simpl. now rewrite IH.
Qed.

Lemma trimEnd_token (t : string) : no_space t = true -> trimEnd t = t.
Proof.
  induction t as [|c t IH]; simpl; intros H; [reflexivity|].
  apply andb_true_iff in H as [Hc Ht]. apply negb_true_iff in Hc. now rewrite Hc, (IH Ht).
Qed.

Lemma trimEnd_prefix (a b : string) :
  trimEnd b <> "" -> trimEnd (a ++ b) = a ++ trimEnd b.
Proof.
  intros Hb. induction a as [|c a IH]; simpl; [reflexivity|].
  rewrite IH. destruct (String.eqb (a ++ trimEnd b) "") eqn:E.
  - apply String.eqb_eq in E. apply append_eq_empty in E as [_ E]. contradiction.
  - now rewrite andb_false_r.
Qed.

Lemma split_from_token (t rest cur : string) (skipping : bool) :
  no_space t = true -> t <> "" ->
  split_from (t ++ rest) cur skipping = split_from rest (cur ++ t) false.
Proof.
  revert cur skipping. induction t as [|c t IH]; intros cur skipping H Hne; [contradiction|].
  simpl in H. apply andb_true_iff in H as [Hc Ht]. apply negb_true_iff in Hc.
  simpl. rewrite Hc. destruct t as [|c' t'].
  - reflexivity.
  - rewrite IH by (auto; discriminate). now rewrite append_assoc.
Qed.

Lemma split_from_spaces_skipping (ws rest cur : string) :
  all_space ws = true -> split_from (ws ++ rest) cur true = split_from rest cur true.
Proof.
  induction ws as [|c ws IH]; simpl; intros H; [reflexivity|].
  apply andb_true_iff in H as [Hc Hws]. rewrite Hc. now apply IH.
Qed.

Lemma split_from_spaces (ws rest cur : string) :
  all_space ws = true -> ws <> "" ->
  split_from (ws ++ rest) cur false = cur :: split_from rest "" true.
Proof.
  destruct ws as [|c ws]; [contradiction|]. simpl. intros H _.
  apply andb_true_iff in H as [Hc Hws]. rewrite Hc. f_equal.
  now apply split_from_spaces_skipping.
Qed.

(** One token, however padded, is read back as that token. *)
Lemma tokens_one (pad1 t pad2 : string) :
  all_space pad1 = true -> all_space pad2 = true -> no_space t = true -> t <> "" ->
  split_ws (trim (pad1 ++ t ++ pad2)) = [t].
Proof.
  intros H1 H2 Ht Hne. unfold trim, split_ws.
  rewrite trimStart_spaces, trimStart_token, trimEnd_spaces, trimEnd_token by assumption.
  rewrite <- (append_empty_r t) at 1. now rewrite split_from_token.
Qed.

(** Two tokens with white space between them are read back as the two. *)
Lemma tokens_two (pad1 t1 ws t2 pad2 : string) :
  all_space pad1 = true -> all_space ws = true -> ws <> "" -> all_space pad2 = true ->
  no_space t1 = true -> t1 <> "" -> no_space t2 = true -> t2 <> "" ->
  split_ws (trim (pad1 ++ t1 ++ ws ++ t2 ++ pad2)) = [t1; t2].
Proof.
  intros H1 Hws Hwsne H2 Ht1 Hne1 Ht2 Hne2. unfold trim, split_ws.
  rewrite trimStart_spaces, trimStart_token by assumption.
  replace (t1 ++ ws ++ t2 ++ pad2) with ((t1 ++ ws ++ t2) ++ pad2)
    by now rewrite !append_assoc.
  rewrite trimEnd_spaces by assumption.
  assert (Htrim : trimEnd t2 = t2) by now apply trimEnd_token.
  rewrite trimEnd_prefix, trimEnd_prefix, Htrim by (rewrite ?trimEnd_prefix, Htrim;
    try (intros E; apply append_eq_empty in E as [_ E]); congruence).
  rewrite split_from_token, split_from_spaces by assumption.
  rewrite <- (append_empty_r t2) at 1. now rewrite split_from_token.
Qed.

Lemma tokens_blank (pad : string) : all_space pad = true -> split_ws (trim pad) = [""].
Proof.
  intros H. unfold trim, split_ws. rewrite <- (append_empty_r pad).
  now rewrite trimStart_spaces.
Qed.

End TextFacts.

(** X8. The /approve command.  With no argument, or only white space, it
    answers with the usage line and leaves the ledger alone.  For a live id
    it always consumes the entry: the approval is granted only when the
    second word is [yes], [y] or [approve] in any letter case; every other
    second word, and no second word at all, resolves the approval as
    denied. *)
Theorem approve_command_decides
    (st : Ledger.state) (pad1 approvalId ws decision pad2 : string)
    (entry : Ledger.PendingApproval) :
  JsText.all_space pad1 = true -> JsText.all_space pad2 = true ->
  JsText.all_space ws = true -> ws <> "" ->
  JsText.no_space approvalId = true -> approvalId <> "" ->
  JsText.no_space decision = true -> decision <> "" ->
  Ledger.pendingApprovals st !! approvalId = Some entry ->
  Approve.handler None st = ("Usage: /approve <id> yes|no", st)
  /\ Approve.handler (Some pad1) st = ("Usage: /approve <id> yes|no", st)
  /\ Approve.handler (Some (pad1 ++ approvalId ++ ws ++ decision ++ pad2)) st
     = ((if Approve.accepts (Some (toLowerCase decision))
         then "Approved action " ++ approvalId ++ "."
         else "Denied action " ++ approvalId ++ "."),
        snd (Ledger.resolveApproval approvalId
               (Approve.accepts (Some (toLowerCase decision))) st))
  /\ Approve.handler (Some (pad1 ++ approvalId ++ pad2)) st
     = ("Denied action " ++ approvalId ++ ".",
        snd (Ledger.resolveApproval approvalId false st))
  /\ (forall approved,
        Ledger.pendingApprovals (snd (Ledger.resolveApproval approvalId approved st))
          !! approvalId = None).
Proof.
  intros H1 H2 Hws Hwsne Hid Hidne Hd Hdne Hlive.
  assert (Htruthy : truthy approvalId = true) by now apply truthy_true.
  split; [reflexivity|]. split; [|split; [|split]].
  - unfold Approve.handler. cbn [default from_option id]. now rewrite tokens_blank.
  - unfold Approve.handler. cbn [default from_option id]. rewrite tokens_two by assumption.
    cbn [lookup list_lookup default from_option id fmap option_fmap option_map]. rewrite Htruthy. cbn [negb].
    rewrite !(resolveApproval_live _ _ _ _ Hlive). reflexivity.
  - unfold Approve.handler. cbn [default from_option id]. rewrite tokens_one by assumption.
    cbn [lookup list_lookup default from_option id fmap option_fmap option_map Approve.accepts].
    rewrite Htruthy. cbn [negb].
    rewrite !(resolveApproval_live _ _ _ _ Hlive). reflexivity.
  - intros approved. rewrite (resolveApproval_live _ _ _ _ Hlive). simpl.
    apply lookup_delete_eq.
Qed.

Lemma approve_command_decides_witness :
  Approve.handler (Some "ab12cd34 ok")
    (Ledger.run [Ledger.Create "ab12cd34" 5000] Ledger.initial)
  = ("Denied action ab12cd34.",
     snd (Ledger.resolveApproval "ab12cd34" false
            (Ledger.run [Ledger.Create "ab12cd34" 5000] Ledger.initial))).
Proof.
  refine (proj1 (proj2 (proj2
            (approve_command_decides (Ledger.run [Ledger.Create "ab12cd34" 5000] Ledger.initial)
               "" "ab12cd34" " " "ok" ""
               {| Ledger.pa_id := "ab12cd34"; Ledger.pa_resolve := 0; Ledger.pa_timeout := 0 |}
               _ _ _ _ _ _ _ _ _)))); try reflexivity; discriminate.
Defined.

(** *** Bodies over any calls *)

Section FreeFacts.

Context {E : Type -> Type}.

Lemma free_run_trace {A : Type} (e : Free.env E) (p : Free.prog E A) (h : list (Free.event E)) :
  snd (Free.run e p h) = (h ++ Free.trace e p h)%list.
Proof.
  revert h. induction p as [a | msg | X c k IH]; intros h; simpl.
  - now rewrite app_nil_r.
  - now rewrite app_nil_r.
  - rewrite IH, <- app_assoc. reflexivity.
Qed.

(** What holds for all answers holds for the run against any collaborators. *)
Lemma holds_run {A : Type} (e : Free.env E) (p : Free.prog E A)
    (h tr : list (Free.event E)) (Q : Vault.outcome A -> list (Free.event E) -> Prop) :
  Free.holds p tr Q -> Q (fst (Free.run e p h)) (tr ++ Free.trace e p h)%list.
Proof.
  revert h tr. induction p as [a | msg | X c k IH]; intros h tr H; simpl in *.
  - now rewrite app_nil_r.
  - now rewrite app_nil_r.
  - specialize (IH _ (h ++ [Free.Ev c (e h X c)])%list _ (H (e h X c))).
    now rewrite <- app_assoc in IH.
Qed.

End FreeFacts.

(** *** The [confirm_action] tool *)

Section ConfirmFacts.

Import Confirm.

(** Open the body of [execute] one call at a time, on every answer. *)
Ltac answer :=
  repeat (cbn -[approvalText String.append find pretty Z.mul];
          match goal with
          | |- forall x : _, _ => intros [] || intros ?
          | |- context [match find ?f ?l with _ => _ end] => destruct (find f l) eqn:?
          | |- context [if s_ok ?r then _ else _] => destruct (s_ok r) eqn:?
          | |- context [truthy ?s] => destruct (truthy s) eqn:?
          end).

(** What every run of [execute] ends in, and what it did on the way. *)
Lemma execute_holds (approvalChannel : string) (approvalTimeout : Z)
    (action details : string) (takeScreenshot : bool) (profile : option string) :
  Free.holds (execute approvalChannel approvalTimeout action details takeScreenshot profile) []
    (fun o tr =>
       exists v, o = Vault.Returned v
         /\ (get_prop v "approved" = JBool true \/ get_prop v "approved" = JBool false)
         /\ (get_prop v "approved" = JBool true ->
             exists approvalId,
               omap waited tr = [(approvalId, true)]
               /\ get_prop v "approvalId" = JStr approvalId)
         /\ length (omap waited tr) <= 1
         /\ (omap waited tr <> [] ->
             exists d rest, omap delivered tr = (d, Ledger.Delivered) :: rest)
         /\ (omap waited tr = [] ->
             get_prop v "approved" = JBool false /\ as_string (get_prop v "error") <> None
             /\ length (omap delivered tr) <= 1)).
Proof.
  unfold execute, takeScreenshotPath, deliverRequest, deliverOutcome.
  destruct takeScreenshot; answer;
    (eexists; split; [reflexivity|]; cbn;
     repeat split; auto; try lia; try discriminate; try congruence;
     try (intros _; eauto); try (intros H; now contradiction H)).
Qed.

End ConfirmFacts.
